(** * Achtung-die-Kobzon: trail mask, collision detector and round simulation

    A shallow embedding of [Moving.tsx] (the two-player variant with gaps and
    a border) and the properties of its collision engine and per-tick
    simulation.

    Numbers.  The program computes with JavaScript numbers.  They are
    modelled as exact rationals [Q]: every comparison of the source is the
    corresponding comparison on [Q], and no rounding, infinity or NaN is
    modelled.  Pixel indices (loop counters, results of [Math.floor],
    [Math.ceil], [Math.round], array indices) are integers [Z], injected into
    [Q] where the source mixes them with fractional values. *)

From Stdlib Require Import QArith Qround Permutation Lqa.
From stdpp Require Import base list strings.

Local Open Scope Z_scope.

(** ** Numeric primitives of the host *)

Definition Math_floor (v : Q) : Z := Qfloor v.
Definition Math_ceil (v : Q) : Z := Qceiling v.

(** [Math.round] rounds to the nearest integer, ties towards +infinity. *)
Definition Math_round (v : Q) : Z := Qfloor (v + (1 # 2)).

(** [for (let v = lo; v <= hi; v++)]: the values the loop variable takes. *)
Definition loopRange (lo hi : Z) : list Z := seqZ lo (hi - lo + 1).

(** ** 1) Configuration *)

Module CONFIG.
Module DOT.
Definition radiusPixels : Q := 2.
End DOT.
Module PHYSICS.
Definition forwardSpeedPixelsPerSecond : Q := 80.
End PHYSICS.
Module INPUT.
Definition toggleMovementKey : string := " ".
Definition playerOneTurnLeftKey : string := "a".
Definition playerOneTurnRightKey : string := "d".
Definition playerTwoTurnLeftKey : string := "j".
Definition playerTwoTurnRightKey : string := "k".
Definition restartKey : string := "r".
End INPUT.
Module TRAIL.
Definition recentIgnoreFrameCount : nat := 10.
Definition extraIgnoreMarginPixels : Q := 3 # 4.
End TRAIL.
Module GAPS.
Definition enabled : bool := true.
Definition minIntervalSeconds : Q := 12 # 10.
Definition maxIntervalSeconds : Q := 3.
Definition minDurationSeconds : Q := 18 # 100.
Definition maxDurationSeconds : Q := 35 # 100.
Definition corridorExtraMarginPixels : Q := 6 # 10.
Definition corridorMaxPoints : nat := 600.
End GAPS.
Module BORDER.
Definition thicknessPixels : Q := 4.
Definition insetPixels : Q := 4.
End BORDER.
End CONFIG.

(** ** 2) Types *)

Record Vector2D := mkVector2D { x : Q; y : Q }.

(** [occupancy] is the [Uint8Array]: 1 = trail pixel, 0 = free. *)
Record TrailMask := mkTrailMask {
  widthPixels : Z;
  heightPixels : Z;
  occupancy : list Z
}.

Record GapState := mkGapState {
  isActive : bool;
  timeUntilNextGap : Q;
  remainingGapTime : Q
}.

Record PlayerState := mkPlayerState {
  label : string;
  colorHex : string;
  angleRadians : Q;
  positionPixels : Vector2D;
  recentPositions : list Vector2D;
  gapCorridor : list Vector2D;
  isAlive : bool;
  scoreSeconds : Q;
  gap : GapState;
  lastRenderedPosition : option Vector2D
}.

(** ** 3) Trail mask and collisions *)

(** [new Uint8Array(n)] throws a [RangeError] for a negative length; [None]
    stands for that exception.  The constructor throws as well beyond the
    engine's upper limit on the length; that limit is not modelled. *)
Definition createTrailMask (widthPixels heightPixels : Z) : option TrailMask :=
  if widthPixels * heightPixels <? 0 then None
  else Some (mkTrailMask widthPixels heightPixels
               (replicate (Z.to_nat (widthPixels * heightPixels)) 0)).

(** Reading [occupancy[index]]: out of range gives [undefined] ([None]). *)
Definition readOccupancy (trailMask : TrailMask) (index : Z) : option Z :=
  if index <? 0 then None else occupancy trailMask !! Z.to_nat index.

(** Writing [occupancy[index] = value]: a typed array ignores a write out of
    range. *)
Definition writeOccupancy (trailMask : TrailMask) (index value : Z) : TrailMask :=
  if index <? 0 then trailMask
  else mkTrailMask (widthPixels trailMask) (heightPixels trailMask)
         (<[Z.to_nat index := value]> (occupancy trailMask)).

Definition markVisitedCircle (trailMask : TrailMask)
    (centerX centerY radiusPixels : Q) : TrailMask :=
  let minX := Z.max 0 (Math_floor (centerX - radiusPixels)) in
  let maxX := Z.min (widthPixels trailMask - 1) (Math_ceil (centerX + radiusPixels)) in
  let minY := Z.max 0 (Math_floor (centerY - radiusPixels)) in
  let maxY := Z.min (heightPixels trailMask - 1) (Math_ceil (centerY + radiusPixels)) in
  let radiusSquared := (radiusPixels * radiusPixels)%Q in
  foldl (fun mask pixelY =>
    let deltaY := (inject_Z pixelY - centerY)%Q in
    let deltaYSquared := (deltaY * deltaY)%Q in
    let rowOffset := pixelY * widthPixels trailMask in
    foldl (fun mask pixelX =>
      let deltaX := (inject_Z pixelX - centerX)%Q in
      let distanceSquared := (deltaX * deltaX + deltaYSquared)%Q in
      if Qle_bool distanceSquared radiusSquared
      then writeOccupancy mask (rowOffset + pixelX) 1
      else mask) mask (loopRange minX maxX))
    trailMask (loopRange minY maxY).

(** The innermost loop of the collision test: does the pixel belong to one of
    the ignored points ([break] on the first hit)? *)
Definition belongsToIgnored (pixelX pixelY : Z) (ignoredPoints : list Vector2D)
    (ignoreRadiusSquared : Q) : bool :=
  existsb (fun p =>
    let dx := (inject_Z pixelX - x p)%Q in
    let dy := (inject_Z pixelY - y p)%Q in
    Qle_bool (dx * dx + dy * dy) ignoreRadiusSquared) ignoredPoints.

(** The body of the two pixel loops for one pixel: [true] is the
    [return true] of the source. *)
Definition pixelCollides (trailMask : TrailMask) (center : Vector2D)
    (radiusPixels : Q) (ignoredPoints : list Vector2D)
    (extraIgnoreMarginPixels : Q) (pixelX pixelY : Z) : bool :=
  let radiusSquared := (radiusPixels * radiusPixels)%Q in
  let ignoreRadius := (radiusPixels + extraIgnoreMarginPixels)%Q in
  let ignoreRadiusSquared := (ignoreRadius * ignoreRadius)%Q in
  let deltaY := (inject_Z pixelY - y center)%Q in
  let deltaYSquared := (deltaY * deltaY)%Q in
  let rowOffset := pixelY * widthPixels trailMask in
  let deltaX := (inject_Z pixelX - x center)%Q in
  let distanceSquared := (deltaX * deltaX + deltaYSquared)%Q in
  if negb (Qle_bool distanceSquared radiusSquared) then false
  else if bool_decide (readOccupancy trailMask (rowOffset + pixelX) = Some 1)
       then negb (belongsToIgnored pixelX pixelY ignoredPoints ignoreRadiusSquared)
       else false.

(** The scan returns at the first colliding pixel, rows outermost. *)
Definition collidesWithTrailExcludingPoints (trailMask : TrailMask)
    (center : Vector2D) (radiusPixels : Q) (ignoredPoints : list Vector2D)
    (extraIgnoreMarginPixels : Q) : bool :=
  let minX := Z.max 0 (Math_floor (x center - radiusPixels)) in
  let maxX := Z.min (widthPixels trailMask - 1) (Math_ceil (x center + radiusPixels)) in
  let minY := Z.max 0 (Math_floor (y center - radiusPixels)) in
  let maxY := Z.min (heightPixels trailMask - 1) (Math_ceil (y center + radiusPixels)) in
  existsb (fun pixelY =>
    existsb (fun pixelX =>
      pixelCollides trailMask center radiusPixels ignoredPoints
        extraIgnoreMarginPixels pixelX pixelY) (loopRange minX maxX))
    (loopRange minY maxY).

(** ** Random draws

    [Math.random()] is modelled by an explicit source of draws that is
    threaded through the code: [Rng] is the sequence of results still to
    come. *)

Definition Rng := nat -> Q.
Definition Rand (A : Type) : Type := Rng -> A * Rng.

Definition ret {A} (a : A) : Rand A := fun rng => (a, rng).
Definition bind {A B} (m : Rand A) (k : A -> Rand B) : Rand B :=
  fun rng => let '(a, rng') := m rng in k a rng'.

Notation "v <- m ;; k" := (bind m (fun v => k))
  (at level 100, m at next level, right associativity).

Definition Math_random : Rand Q := fun rng => (rng O, fun n => rng (S n)).

Definition randomInRange (min max : Q) : Rand Q :=
  u <- Math_random ;; ret (min + u * (max - min))%Q.

Definition Qlt_bool (a b : Q) : bool := negb (Qle_bool b a).

Definition Math_max (a b : Q) : Q := if Qle_bool a b then b else a.

(** ** Gap scheduler *)

Definition initGapState : Rand GapState :=
  t <- randomInRange CONFIG.GAPS.minIntervalSeconds CONFIG.GAPS.maxIntervalSeconds ;;
  ret (mkGapState false t 0).

Definition updateGap (gap : GapState) (deltaTimeSeconds : Q) : Rand GapState :=
  if negb CONFIG.GAPS.enabled then ret gap
  else if isActive gap then
    let remaining := (remainingGapTime gap - deltaTimeSeconds)%Q in
    if Qle_bool remaining 0 then
      t <- randomInRange CONFIG.GAPS.minIntervalSeconds CONFIG.GAPS.maxIntervalSeconds ;;
      ret (mkGapState false t remaining)
    else ret (mkGapState true (timeUntilNextGap gap) remaining)
  else
    let untilNext := (timeUntilNextGap gap - deltaTimeSeconds)%Q in
    if Qle_bool untilNext 0 then
      d <- randomInRange CONFIG.GAPS.minDurationSeconds CONFIG.GAPS.maxDurationSeconds ;;
      ret (mkGapState true untilNext d)
    else ret (mkGapState false untilNext (remainingGapTime gap)).

(** ** Border *)

Definition hitsBorder (px py width height radius : Q) : bool :=
  let t := CONFIG.BORDER.thicknessPixels in
  let inset := CONFIG.BORDER.insetPixels in
  let minX := (inset + t + radius)%Q in
  let maxX := (width - inset - t - radius)%Q in
  let minY := (inset + t + radius)%Q in
  let maxY := (height - inset - t - radius)%Q in
  Qlt_bool px minX || Qlt_bool maxX px || Qlt_bool py minY || Qlt_bool maxY py.

(** ** Player updates (field assignments of the source) *)

Definition set_angleRadians (p : PlayerState) (a : Q) : PlayerState :=
  mkPlayerState (label p) (colorHex p) a (positionPixels p) (recentPositions p)
    (gapCorridor p) (isAlive p) (scoreSeconds p) (gap p) (lastRenderedPosition p).

Definition set_positionPixels (p : PlayerState) (v : Vector2D) : PlayerState :=
  mkPlayerState (label p) (colorHex p) (angleRadians p) v (recentPositions p)
    (gapCorridor p) (isAlive p) (scoreSeconds p) (gap p) (lastRenderedPosition p).

Definition set_recentPositions (p : PlayerState) (l : list Vector2D) : PlayerState :=
  mkPlayerState (label p) (colorHex p) (angleRadians p) (positionPixels p) l
    (gapCorridor p) (isAlive p) (scoreSeconds p) (gap p) (lastRenderedPosition p).

Definition set_gapCorridor (p : PlayerState) (l : list Vector2D) : PlayerState :=
  mkPlayerState (label p) (colorHex p) (angleRadians p) (positionPixels p)
    (recentPositions p) l (isAlive p) (scoreSeconds p) (gap p)
    (lastRenderedPosition p).

Definition set_isAlive (p : PlayerState) (b : bool) : PlayerState :=
  mkPlayerState (label p) (colorHex p) (angleRadians p) (positionPixels p)
    (recentPositions p) (gapCorridor p) b (scoreSeconds p) (gap p)
    (lastRenderedPosition p).

Definition set_scoreSeconds (p : PlayerState) (s : Q) : PlayerState :=
  mkPlayerState (label p) (colorHex p) (angleRadians p) (positionPixels p)
    (recentPositions p) (gapCorridor p) (isAlive p) s (gap p)
    (lastRenderedPosition p).

Definition set_gap (p : PlayerState) (g : GapState) : PlayerState :=
  mkPlayerState (label p) (colorHex p) (angleRadians p) (positionPixels p)
    (recentPositions p) (gapCorridor p) (isAlive p) (scoreSeconds p) g
    (lastRenderedPosition p).

Definition set_lastRenderedPosition (p : PlayerState) (v : option Vector2D)
    : PlayerState :=
  mkPlayerState (label p) (colorHex p) (angleRadians p) (positionPixels p)
    (recentPositions p) (gapCorridor p) (isAlive p) (scoreSeconds p) (gap p) v.

(** [push] then one [shift()] when the buffer got longer than the limit. *)
Definition pushRecent (player : PlayerState) (point : Vector2D) : PlayerState :=
  let pushed := recentPositions player ++ [point] in
  set_recentPositions player
    (if (CONFIG.TRAIL.recentIgnoreFrameCount <? length pushed)%nat
     then drop 1 pushed else pushed).

(** [push] then [splice(0, length - corridorMaxPoints)] when too long. *)
Definition pushGapCorridor (player : PlayerState) (point : Vector2D) : PlayerState :=
  let pushed := gapCorridor player ++ [point] in
  set_gapCorridor player
    (if (CONFIG.GAPS.corridorMaxPoints <? length pushed)%nat
     then drop (length pushed - CONFIG.GAPS.corridorMaxPoints) pushed
     else pushed).

(** ** 4) Round state, reset and key handling *)

(** The mutable variables captured by the closures of the component, plus
    the size of the canvas element as set by the last reset. *)
Record RoundState := mkRoundState {
  isMoving : bool;
  hasRoundEnded : bool;
  trailMask : TrailMask;
  playerOne : PlayerState;
  playerTwo : PlayerState;
  pressedKeys : list string;
  lastTimestampMs : Q;
  clientWidth : Z;
  clientHeight : Z
}.

Record Window := mkWindow { innerWidth : Z; innerHeight : Z }.

Definition roundedPosition (p : Vector2D) : Vector2D :=
  mkVector2D (inject_Z (Math_round (x p))) (inject_Z (Math_round (y p))).

(** The state of a player right after the assignments of [resetRound]. *)
Definition respawn (player : PlayerState) (position : Vector2D) (g : GapState)
    : PlayerState :=
  mkPlayerState (label player) (colorHex player) 0 position [] [] true 0 g None.

Definition resetRound (window : Window) (st : RoundState)
    : Rng -> option (RoundState * Rng) := fun rng =>
  let widthCssPixels := innerWidth window in
  let heightCssPixels := innerHeight window in
  match createTrailMask widthCssPixels heightCssPixels with
  | None => None
  | Some mask0 =>
    Some ((
      let radius := CONFIG.DOT.radiusPixels in
      let t := CONFIG.BORDER.thicknessPixels in
      let inset := CONFIG.BORDER.insetPixels in
      let minX := (inset + t + radius)%Q in
      let maxX := (inject_Z widthCssPixels - inset - t - radius)%Q in
      let minY := (inset + t + radius)%Q in
      let maxY := (inject_Z heightCssPixels - inset - t - radius)%Q in
      u1x <- Math_random ;;
      u1y <- Math_random ;;
      u2x <- Math_random ;;
      u2y <- Math_random ;;
      let position1 := mkVector2D (minX + u1x * (maxX - minX)) (minY + u1y * (maxY - minY)) in
      let position2 := mkVector2D (minX + u2x * (maxX - minX)) (minY + u2y * (maxY - minY)) in
      gap1 <- initGapState ;;
      gap2 <- initGapState ;;
      let p1 := respawn (playerOne st) position1 gap1 in
      let p2 := respawn (playerTwo st) position2 gap2 in
      let mask1 := markVisitedCircle mask0 (x (roundedPosition position1))
                     (y (roundedPosition position1)) radius in
      let mask2 := markVisitedCircle mask1 (x (roundedPosition position2))
                     (y (roundedPosition position2)) radius in
      ret (mkRoundState false false mask2
             (pushRecent p1 (roundedPosition position1))
             (pushRecent p2 (roundedPosition position2))
             (pressedKeys st) (lastTimestampMs st)
             widthCssPixels heightCssPixels)) rng)
  end.

(** [key] is [event.key.toLowerCase()]. *)
Definition handleKeyDown (window : Window) (key : string) (st : RoundState)
    : Rng -> option (RoundState * Rng) := fun rng =>
  if bool_decide (key = CONFIG.INPUT.toggleMovementKey) then
    if hasRoundEnded st then Some (st, rng)
    else Some (mkRoundState (negb (isMoving st)) (hasRoundEnded st) (trailMask st)
                 (playerOne st) (playerTwo st) (pressedKeys st)
                 (lastTimestampMs st) (clientWidth st) (clientHeight st), rng)
  else if bool_decide (key = CONFIG.INPUT.restartKey) then resetRound window st rng
  else Some (mkRoundState (isMoving st) (hasRoundEnded st) (trailMask st)
               (playerOne st) (playerTwo st)
               (if bool_decide (key ∈ pressedKeys st) then pressedKeys st
                else pressedKeys st ++ [key])
               (lastTimestampMs st) (clientWidth st) (clientHeight st), rng).

Definition handleKeyUp (key : string) (st : RoundState) : RoundState :=
  if bool_decide (key = CONFIG.INPUT.toggleMovementKey) then st
  else mkRoundState (isMoving st) (hasRoundEnded st) (trailMask st)
         (playerOne st) (playerTwo st)
         (filter (fun k => k ≠ key) (pressedKeys st))
         (lastTimestampMs st) (clientWidth st) (clientHeight st).

(** ** Game loop *)

Section GameLoop.

(** [Math.cos], [Math.sin] and [Math.PI] of the host. *)
Variables (Math_cos Math_sin : Q -> Q) (Math_PI : Q).

Definition turnSpeedRadiansPerSecond : Q := (Math_PI / 2)%Q.

Definition advance (angle deltaTimeSeconds : Q) : Q * Q :=
  ((Math_cos angle * CONFIG.PHYSICS.forwardSpeedPixelsPerSecond * deltaTimeSeconds)%Q,
   (Math_sin angle * CONFIG.PHYSICS.forwardSpeedPixelsPerSecond * deltaTimeSeconds)%Q).

(** The rotation block for one player: left key, then right key. *)
Definition rotate (keys : list string) (leftKey rightKey : string)
    (deltaTimeSeconds : Q) (player : PlayerState) : PlayerState :=
  let player1 :=
    if bool_decide (leftKey ∈ keys)
    then set_angleRadians player
           (angleRadians player - turnSpeedRadiansPerSecond * deltaTimeSeconds)%Q
    else player in
  if bool_decide (rightKey ∈ keys)
  then set_angleRadians player1
         (angleRadians player1 + turnSpeedRadiansPerSecond * deltaTimeSeconds)%Q
  else player1.

(** The list passed as [ignoredPoints] for the player [self]:
    [ignorePointsP1] with [self] = player one, [ignorePointsP2] with
    [self] = player two. *)
Definition ignorePoints (self other : PlayerState) : list Vector2D :=
  recentPositions self ++ gapCorridor self ++ gapCorridor other.

(** The block "Gracz 1" / "Gracz 2" inside [if (player.isAlive)]; the two
    blocks of the source are the same text with the players exchanged. *)
Definition movePlayer (self other : PlayerState) (mask : TrailMask)
    (w h : Z) (deltaTimeSeconds : Q) : PlayerState * TrailMask :=
  let radius := CONFIG.DOT.radiusPixels in
  let a := advance (angleRadians self) deltaTimeSeconds in
  let nextX := (x (positionPixels self) + fst a)%Q in
  let nextY := (y (positionPixels self) + snd a)%Q in
  if hitsBorder nextX nextY (inject_Z w) (inject_Z h) radius then
    (set_isAlive self false, mask)
  else
    let rounded := roundedPosition (mkVector2D nextX nextY) in
    let collides :=
      collidesWithTrailExcludingPoints mask rounded radius
        (ignorePoints self other)
        (Math_max CONFIG.TRAIL.extraIgnoreMarginPixels
                  CONFIG.GAPS.corridorExtraMarginPixels) in
    if collides then (set_isAlive self false, mask)
    else
      let moved := set_positionPixels self (mkVector2D nextX nextY) in
      let stamped :=
        if negb (isActive (gap moved))
        then (pushRecent moved rounded,
              markVisitedCircle mask (x rounded) (y rounded) radius)
        else (pushGapCorridor moved rounded, mask) in
      (set_scoreSeconds (fst stamped)
         (scoreSeconds (fst stamped) + deltaTimeSeconds)%Q,
       snd stamped).

(** [if (player.isAlive) updateGap(player.gap, dt)]. *)
Definition tickGap (player : PlayerState) (deltaTimeSeconds : Q)
    : Rand PlayerState :=
  if isAlive player
  then g <- updateGap (gap player) deltaTimeSeconds ;; ret (set_gap player g)
  else ret player.

(** [drawHeadWithGap], the part that touches the simulation state. *)
Definition drawHeadWithGap (player : PlayerState) : PlayerState :=
  set_lastRenderedPosition player
    (Some (mkVector2D (x (positionPixels player)) (y (positionPixels player)))).

(** Player one's block of a running tick. *)
Definition resolvePlayerOne (p1 p2 : PlayerState) (mask : TrailMask)
    (w h : Z) (deltaTimeSeconds : Q) : PlayerState * TrailMask :=
  if isAlive p1 then movePlayer p1 p2 mask w h deltaTimeSeconds else (p1, mask).

(** Player two's block; [p1] is player one as the first block left it. *)
Definition resolvePlayerTwo (p1 p2 : PlayerState) (mask : TrailMask)
    (w h : Z) (deltaTimeSeconds : Q) : PlayerState * TrailMask :=
  if isAlive p2 then movePlayer p2 p1 mask w h deltaTimeSeconds else (p2, mask).

Definition step (nowMs : Q) (st : RoundState) : Rand RoundState :=
  let deltaTimeSeconds := ((nowMs - lastTimestampMs st) / 1000)%Q in
  let keys := pressedKeys st in
  let p1 := rotate keys CONFIG.INPUT.playerOneTurnLeftKey
              CONFIG.INPUT.playerOneTurnRightKey deltaTimeSeconds (playerOne st) in
  let p2 := rotate keys CONFIG.INPUT.playerTwoTurnLeftKey
              CONFIG.INPUT.playerTwoTurnRightKey deltaTimeSeconds (playerTwo st) in
  if isMoving st && negb (hasRoundEnded st) then
    let w := clientWidth st in
    let h := clientHeight st in
    p1g <- tickGap p1 deltaTimeSeconds ;;
    p2g <- tickGap p2 deltaTimeSeconds ;;
    let r1 := resolvePlayerOne p1g p2g (trailMask st) w h deltaTimeSeconds in
    let r2 := resolvePlayerTwo (fst r1) p2g (snd r1) w h deltaTimeSeconds in
    let bothDead := negb (isAlive (fst r1)) && negb (isAlive (fst r2)) in
    ret (mkRoundState
           (if bothDead then false else isMoving st)
           (if bothDead then true else hasRoundEnded st)
           (snd r2) (drawHeadWithGap (fst r1)) (drawHeadWithGap (fst r2))
           keys nowMs w h)
  else
    ret (mkRoundState (isMoving st) (hasRoundEnded st) (trailMask st)
           (drawHeadWithGap p1) (drawHeadWithGap p2) keys nowMs
           (clientWidth st) (clientHeight st)).

(** *** Names for the intermediate values of a running tick *)

Definition tickDelta (nowMs : Q) (st : RoundState) : Q :=
  ((nowMs - lastTimestampMs st) / 1000)%Q.

(** The position a player tries to move to. *)
Definition candidate (player : PlayerState) (deltaTimeSeconds : Q) : Vector2D :=
  mkVector2D
    (x (positionPixels player) + fst (advance (angleRadians player) deltaTimeSeconds))
    (y (positionPixels player) + snd (advance (angleRadians player) deltaTimeSeconds)).

Definition ignoreMargin : Q :=
  Math_max CONFIG.TRAIL.extraIgnoreMarginPixels
           CONFIG.GAPS.corridorExtraMarginPixels.

(** Player one after rotation and the gap clock, before its movement. *)
Definition readyOne (nowMs : Q) (st : RoundState) (rng : Rng) : PlayerState * Rng :=
  tickGap (rotate (pressedKeys st) CONFIG.INPUT.playerOneTurnLeftKey
             CONFIG.INPUT.playerOneTurnRightKey (tickDelta nowMs st) (playerOne st))
    (tickDelta nowMs st) rng.

(** Player two after rotation and the gap clock, before any movement. *)
Definition readyTwo (nowMs : Q) (st : RoundState) (rng : Rng) : PlayerState * Rng :=
  tickGap (rotate (pressedKeys st) CONFIG.INPUT.playerTwoTurnLeftKey
             CONFIG.INPUT.playerTwoTurnRightKey (tickDelta nowMs st) (playerTwo st))
    (tickDelta nowMs st) (snd (readyOne nowMs st rng)).

(** Player one and the mask after player one's block. *)
Definition afterOne (nowMs : Q) (st : RoundState) (rng : Rng)
    : PlayerState * TrailMask :=
  resolvePlayerOne (fst (readyOne nowMs st rng)) (fst (readyTwo nowMs st rng))
    (trailMask st) (clientWidth st) (clientHeight st) (tickDelta nowMs st).

(** Player two and the mask after player two's block. *)
Definition afterTwo (nowMs : Q) (st : RoundState) (rng : Rng)
    : PlayerState * TrailMask :=
  resolvePlayerTwo (fst (afterOne nowMs st rng)) (fst (readyTwo nowMs st rng))
    (snd (afterOne nowMs st rng)) (clientWidth st) (clientHeight st)
    (tickDelta nowMs st).

Definition running (st : RoundState) : Prop :=
  isMoving st = true /\ hasRoundEnded st = false.

End GameLoop.

(** ** Vocabulary of the specification *)

(** The pixel [(px, py)] of a mask: its entry in the row-major array. *)
Definition cellOccupancy (mask : TrailMask) (px py : Z) : option Z :=
  readOccupancy mask (py * widthPixels mask + px).

Definition occupied (mask : TrailMask) (px py : Z) : Prop :=
  cellOccupancy mask px py = Some 1.

Definition inGrid (mask : TrailMask) (px py : Z) : Prop :=
  0 <= px < widthPixels mask /\ 0 <= py < heightPixels mask.

(** Every pixel of the mask has an entry in the array. *)
Definition wellFormed (mask : TrailMask) : Prop :=
  0 <= widthPixels mask /\ 0 <= heightPixels mask /\
  length (occupancy mask) = Z.to_nat (widthPixels mask * heightPixels mask).

(** Squared Euclidean distance between the pixel [(px, py)] and [(cx, cy)]. *)
Definition distanceSquaredTo (px py : Z) (cx cy : Q) : Q :=
  ((inject_Z px - cx) * (inject_Z px - cx) +
   (inject_Z py - cy) * (inject_Z py - cy))%Q.

(** The pixel lies within distance [d] of the point [p]: over the rationals,
    [sqrt s <= d] is [0 <= d] together with [s <= d * d]. *)
Definition withinDistance (d : Q) (px py : Z) (p : Vector2D) : Prop :=
  (0 <= d)%Q /\ (distanceSquaredTo px py (x p) (y p) <= d * d)%Q.

(** The bounding box of the circle, clamped to the grid. *)
Definition inClampedBox (mask : TrailMask) (cx cy r : Q) (px py : Z) : Prop :=
  Z.max 0 (Math_floor (cx - r)) <= px <=
    Z.min (widthPixels mask - 1) (Math_ceil (cx + r)) /\
  Z.max 0 (Math_floor (cy - r)) <= py <=
    Z.min (heightPixels mask - 1) (Math_ceil (cy + r)).

(** The pixels of the clamped bounding box in the order the source scans
    them: row by row, each row from left to right. *)
Definition scanOrder (mask : TrailMask) (cx cy r : Q) : list (Z * Z) :=
  pixelY ← loopRange (Z.max 0 (Math_floor (cy - r)))
             (Z.min (heightPixels mask - 1) (Math_ceil (cy + r)));
  pixelX ← loopRange (Z.max 0 (Math_floor (cx - r)))
             (Z.min (widthPixels mask - 1) (Math_ceil (cx + r)));
  [(pixelX, pixelY)].

(** The circle of radius [r] around [(cx, cy)] lies fully inside the grid. *)
Definition circleInsideGrid (mask : TrailMask) (cx cy r : Q) : Prop :=
  (0 <= cx - r)%Q /\ (cx + r <= inject_Z (widthPixels mask - 1))%Q /\
  (0 <= cy - r)%Q /\ (cy + r <= inject_Z (heightPixels mask - 1))%Q.

(** The safe rectangle of [hitsBorder] for a surface of the given size:
    lower and upper bound of each coordinate. *)
Definition safeMin (radius : Q) : Q :=
  (CONFIG.BORDER.insetPixels + CONFIG.BORDER.thicknessPixels + radius)%Q.
Definition safeMax (extent radius : Q) : Q :=
  (extent - CONFIG.BORDER.insetPixels - CONFIG.BORDER.thicknessPixels - radius)%Q.

Definition insideSafeRectangle (px py width height radius : Q) : Prop :=
  (safeMin radius <= px <= safeMax width radius)%Q /\
  (safeMin radius <= py <= safeMax height radius)%Q.

(** On the boundary: inside the closed rectangle, on one of its four sides. *)
Definition onSafeBoundary (px py width height radius : Q) : Prop :=
  insideSafeRectangle px py width height radius /\
  (px == safeMin radius \/ px == safeMax width radius \/
   py == safeMin radius \/ py == safeMax height radius)%Q.

(** One unit beyond one of the four sides. *)
Definition oneUnitBeyond (px py width height radius : Q) : Prop :=
  (px == safeMin radius - 1 \/ px == safeMax width radius + 1 \/
   py == safeMin radius - 1 \/ py == safeMax height radius + 1)%Q.

(** ** Phases of the gap scheduler

    A run of [updateGap] calls is cut into phases: a phase ends with the call
    that flips [isActive].  For each completed phase the log keeps its state,
    the countdown or duration that was drawn for it, the delta time
    accumulated over its calls (the flipping call included) and the delta
    time of that last call. *)

Record Phase := mkPhase {
  phaseIsGap : bool;
  phaseDrawn : Q;
  phaseElapsed : Q;
  phaseLastDelta : Q
}.

(** The timer that is counting down in the current state. *)
Definition currentTimer (g : GapState) : Q :=
  if isActive g then remainingGapTime g else timeUntilNextGap g.

Fixpoint gapPhases (deltas : list Q) (g : GapState) (drawn elapsed : Q)
    (rng : Rng) : list Phase :=
  match deltas with
  | [] => []
  | dt :: rest =>
    let '(g', rng') := updateGap g dt rng in
    if bool_decide (isActive g' = isActive g)
    then gapPhases rest g' drawn (elapsed + dt)%Q rng'
    else mkPhase (isActive g) drawn (elapsed + dt)%Q dt
           :: gapPhases rest g' (currentTimer g') 0 rng'
  end.

(** The phases of a run that starts from [initGapState]. *)
Definition gapRun (deltas : list Q) (rng : Rng) : list Phase :=
  let '(g0, rng') := initGapState rng in
  gapPhases deltas g0 (currentTimer g0) 0 rng'.

(** The interval the countdown of a solid phase, resp. the duration of a gap
    phase, is configured to lie in. *)
Definition phaseMin (isGap : bool) : Q :=
  if isGap then CONFIG.GAPS.minDurationSeconds else CONFIG.GAPS.minIntervalSeconds.
Definition phaseMax (isGap : bool) : Q :=
  if isGap then CONFIG.GAPS.maxDurationSeconds else CONFIG.GAPS.maxIntervalSeconds.

(** What the spec says of a phase: its accumulated time lies in the interval. *)
Definition phaseWithinInterval (ph : Phase) : Prop :=
  (phaseMin (phaseIsGap ph) <= phaseElapsed ph <= phaseMax (phaseIsGap ph))%Q.

(** *** Calls of the gap scheduler

    A run of [updateGap] calls, call by call: the state each call found, its
    delta time and the state it left. *)

Record GapCall := mkGapCall {
  callBefore : GapState;
  callDelta : Q;
  callAfter : GapState
}.

Fixpoint gapCalls (deltas : list Q) (g : GapState) (rng : Rng) : list GapCall :=
  match deltas with
  | [] => []
  | dt :: rest =>
    let '(g', rng') := updateGap g dt rng in
    mkGapCall g dt g' :: gapCalls rest g' rng'
  end.

(** The calls of a run that starts from [initGapState]. *)
Definition gapTrace (deltas : list Q) (rng : Rng) : list GapCall :=
  let '(g0, rng') := initGapState rng in gapCalls deltas g0 rng'.

(** Each call starts from the state the previous one left, the first one
    from [start]. *)
Fixpoint chained (start : GapState) (calls : list GapCall) : Prop :=
  match calls with
  | [] => True
  | c :: rest => callBefore c = start /\ chained (callAfter c) rest
  end.

(** The running countdown lies in the interval configured for the state. *)
Definition withinPhaseInterval (g : GapState) : Prop :=
  (phaseMin (isActive g) <= currentTimer g <= phaseMax (isActive g))%Q.

(** What one call does, in terms of the countdown the code keeps: between
    calls the running countdown is positive and at most the configured
    maximum; the call flips the state exactly when its delta time is at
    least the running countdown, and the new countdown is then drawn from the
    interval of the new state; otherwise it keeps the state and takes the
    delta time off the countdown. *)
Definition callFollowsCountdown (c : GapCall) : Prop :=
  (0 < currentTimer (callBefore c) <= phaseMax (isActive (callBefore c)))%Q /\
  ((currentTimer (callBefore c) <= callDelta c)%Q ->
   isActive (callAfter c) = negb (isActive (callBefore c)) /\
   withinPhaseInterval (callAfter c)) /\
  ((callDelta c < currentTimer (callBefore c))%Q ->
   isActive (callAfter c) = isActive (callBefore c) /\
   currentTimer (callAfter c) = (currentTimer (callBefore c) - callDelta c)%Q) /\
  (0 < currentTimer (callAfter c) <= phaseMax (isActive (callAfter c)))%Q.

(** The draws of [Math.random()] lie in [0, 1). *)
Definition unitDraws (rng : Rng) : Prop := forall n, (0 <= rng n < 1)%Q.

(** ** Buffer operations *)

Inductive BufferOp :=
| PushRecent (point : Vector2D)
| PushGapCorridor (point : Vector2D).

Definition applyBufferOp (player : PlayerState) (op : BufferOp) : PlayerState :=
  match op with
  | PushRecent point => pushRecent player point
  | PushGapCorridor point => pushGapCorridor player point
  end.

Definition recentPushed (ops : list BufferOp) : list Vector2D :=
  omap (fun op => match op with PushRecent p => Some p | _ => None end) ops.

Definition corridorPushed (ops : list BufferOp) : list Vector2D :=
  omap (fun op => match op with PushGapCorridor p => Some p | _ => None end) ops.

(** The last [n] entries of a list, in their order. *)
Definition newest {A} (n : nat) (l : list A) : list A := drop (length l - n) l.

(** ** Effect of a stamp on the array

    [stamped S m m']: [m'] is [m] with the value 1 written at the indices
    of [S] (those that exist in the array) and nothing else changed. *)

Record stamped (S : Z -> Prop) (m m' : TrailMask) : Prop := mkStamped {
  stamped_width : widthPixels m' = widthPixels m;
  stamped_height : heightPixels m' = heightPixels m;
  stamped_length : length (occupancy m') = length (occupancy m);
  stamped_keep : forall j, readOccupancy m j = Some 1 -> readOccupancy m' j = Some 1;
  stamped_set : forall j, S j -> is_Some (readOccupancy m j) ->
                          readOccupancy m' j = Some 1;
  stamped_frame : forall j, ~ S j -> readOccupancy m' j = readOccupancy m j
}.

(** ** Sample states *)

Definition samplePlayer (name color : string) (position : Vector2D)
    (alive : bool) (score : Q) (g : GapState) : PlayerState :=
  mkPlayerState name color 0 position [] [] alive score g None.

(** The mask [createTrailMask] returns for a 100 x 100 surface. *)
Definition blankMask : TrailMask :=
  mkTrailMask 100 100 (replicate (Z.to_nat (100 * 100)) 0).

(** A round that has ended on a 100 x 100 surface: both players crashed. *)
Definition endedRound : RoundState :=
  mkRoundState false true blankMask
    (samplePlayer "Player 1" "#66e3ff" (mkVector2D 20 20) false 7 (mkGapState false 1 0))
    (samplePlayer "Player 2" "#ffd166" (mkVector2D 70 70) false 9 (mkGapState false 1 0))
    [] 0 100 100.

(** A running round on a 100 x 100 surface, both players heading right
    (angle 0) and about to advance by one pixel.  Player two is solid at
    (52, 51), on its own last stamp; the pixel (55, 51) carries old trail.
    Player one is inside a gap at (56, 52). *)
Definition crossingRound : RoundState :=
  mkRoundState true false
    (writeOccupancy (markVisitedCircle blankMask 52 51 2) (51 * 100 + 55) 1)
    (mkPlayerState "Player 1" "#66e3ff" 0 (mkVector2D 56 52) [] [] true 3
       (mkGapState true 0 1) None)
    (mkPlayerState "Player 2" "#ffd166" 0 (mkVector2D 52 51) [mkVector2D 52 51] []
       true 3 (mkGapState false 2 0) None)
    [] 0 100 100.

(** A running round in which player one, heading right, stands on its last
    stamp at (89, 50), one pixel left of the right side of the safe
    rectangle (x = 90 on a surface of width 100).  With [trail], an older
    stamp of the other player lies at (90, 50). *)
Definition borderRound (trail : bool) : RoundState :=
  mkRoundState true false
    (if trail
     then markVisitedCircle (markVisitedCircle blankMask 90 50 2) 89 50 2
     else markVisitedCircle blankMask 89 50 2)
    (mkPlayerState "Player 1" "#66e3ff" 0 (mkVector2D 89 50) [mkVector2D 89 50] []
       true 3 (mkGapState false 2 0) None)
    (samplePlayer "Player 2" "#ffd166" (mkVector2D 20 20) true 3 (mkGapState false 2 0))
    [] 0 100 100.

(** A running round in which player one has crashed at (30, 30) and player
    two, solid at (52, 51) on its own last stamp, heads right. *)
Definition oneDeadRound : RoundState :=
  mkRoundState true false (markVisitedCircle blankMask 52 51 2)
    (samplePlayer "Player 1" "#66e3ff" (mkVector2D 30 30) false 7 (mkGapState false 1 0))
    (mkPlayerState "Player 2" "#ffd166" 0 (mkVector2D 52 51) [mkVector2D 52 51] []
       true 3 (mkGapState false 2 0) None)
    [] 0 100 100.

(** Host functions for the sample runs, in which every heading is 0:
    [cos 0 = 1] and [sin 0 = 0]. *)
Definition cosAtZero : Q -> Q := fun _ => 1%Q.
Definition sinAtZero : Q -> Q := fun _ => 0%Q.

Definition piApprox : Q := (355 # 113)%Q.

(** A source of draws that always yields 1/2. *)
Definition halves : Rng := fun _ => (1 # 2)%Q.

(** ** Further vocabulary *)

(** The source of draws after [n] calls of [Math.random()]. *)
Definition skipDraws (n : nat) (rng : Rng) : Rng := fun k => rng (n + k)%nat.

(** A living player stands inside the safe rectangle of the canvas. *)
Definition aliveInsideSafeRectangle (st : RoundState) (player : PlayerState) : Prop :=
  isAlive player = true ->
  insideSafeRectangle (x (positionPixels player)) (y (positionPixels player))
    (inject_Z (clientWidth st)) (inject_Z (clientHeight st))
    CONFIG.DOT.radiusPixels.

(** The array indices [markVisitedCircle] writes to. *)
Definition stampIndices (m : TrailMask) (cx cy r : Q) (j : Z) : Prop :=
  exists px py,
    inClampedBox m cx cy r px py /\
    (distanceSquaredTo px py cx cy <= r * r)%Q /\
    j = py * widthPixels m + px.

(** The circle lies beyond one side of the grid by enough for the clamped
    bounding box to be empty. *)
Definition missesGrid (m : TrailMask) (cx cy r : Q) : Prop :=
  (cx + r <= -1)%Q \/ (inject_Z (widthPixels m) <= cx - r)%Q \/
  (cy + r <= -1)%Q \/ (inject_Z (heightPixels m) <= cy - r)%Q.

Definition Math_min (a b : Q) : Q := if Qle_bool a b then a else b.

(** ** Index helpers of the earlier two-player version *)

Definition toIndex (trailMask : TrailMask) (pixelX pixelY : Z) : Z :=
  pixelY * widthPixels trailMask + pixelX.

Definition isInBounds (trailMask : TrailMask) (pixelX pixelY : Z) : bool :=
  (0 <=? pixelX) && (0 <=? pixelY) &&
  (pixelX <? widthPixels trailMask) && (pixelY <? heightPixels trailMask).

(** ** The single-player snapshot

    The older [Moving.tsx] kept in the same file: one dot, no border, no
    gaps, no death; a collision stops the movement. *)

Module SinglePlayer.

Definition radiusPixels : Q := 2.
Definition forwardSpeedPixelsPerSecond : Q := 80.
Definition toggleMovementKey : string := " ".
Definition turnLeftKey : string := "a".
Definition turnRightKey : string := "d".
Definition recentIgnoreFrameCount : nat := 10.
Definition extraIgnoreMarginPixels : Q := 3 # 4.

(** As in the source: [deltaY] is taken from [centerX]. *)
Definition markVisitedCircle (trailMask : TrailMask)
    (centerX centerY radiusPixels : Q) : TrailMask :=
  let minX := Z.max 0 (Math_floor (centerX - radiusPixels)) in
  let maxX := Z.min (widthPixels trailMask - 1) (Math_ceil (centerX + radiusPixels)) in
  let minY := Z.max 0 (Math_floor (centerY - radiusPixels)) in
  let maxY := Z.min (heightPixels trailMask - 1) (Math_ceil (centerY + radiusPixels)) in
  let radiusSquared := (radiusPixels * radiusPixels)%Q in
  foldl (fun mask pixelY =>
    let deltaY := (inject_Z pixelY - centerX)%Q in
    let deltaYSquared := (deltaY * deltaY)%Q in
    let rowOffset := pixelY * widthPixels trailMask in
    foldl (fun mask pixelX =>
      let deltaX := (inject_Z pixelX - centerX)%Q in
      let distanceSquared := (deltaX * deltaX + deltaYSquared)%Q in
      if Qle_bool distanceSquared radiusSquared
      then writeOccupancy mask (rowOffset + pixelX) 1
      else mask) mask (loopRange minX maxX))
    trailMask (loopRange minY maxY).

(** The loops of the source are those of [collidesWithTrailExcludingPoints]
    with the locals renamed. *)
Definition collidesWithTrailExcludingRecent (trailMask : TrailMask)
    (center : Vector2D) (radiusPixels : Q) (recentPositions : list Vector2D)
    (extraIgnoreMarginPixels : Q) : bool :=
  collidesWithTrailExcludingPoints trailMask center radiusPixels
    recentPositions extraIgnoreMarginPixels.

(** The mutable variables of the component and the size of the canvas. *)
Record State := mkState {
  isMoving : bool;
  headingAngleRadians : Q;
  trailMask : TrailMask;
  recentPositions : list Vector2D;
  pressedKeys : list string;
  positionPixels : Vector2D;
  lastTimestampMs : Q;
  clientWidth : Z;
  clientHeight : Z
}.

Definition pushRecentPosition (recent : list Vector2D) (point : Vector2D)
    : list Vector2D :=
  let pushed := recent ++ [point] in
  if (recentIgnoreFrameCount <? length pushed)%nat then drop 1 pushed else pushed.

Definition handleKeyDown (key : string) (st : State) : State :=
  if bool_decide (key = toggleMovementKey)
  then mkState (negb (isMoving st)) (headingAngleRadians st) (trailMask st)
         (recentPositions st) (pressedKeys st) (positionPixels st)
         (lastTimestampMs st) (clientWidth st) (clientHeight st)
  else mkState (isMoving st) (headingAngleRadians st) (trailMask st)
         (recentPositions st)
         (if bool_decide (key ∈ pressedKeys st) then pressedKeys st
          else pressedKeys st ++ [key])
         (positionPixels st) (lastTimestampMs st) (clientWidth st)
         (clientHeight st).

Definition handleKeyUp (key : string) (st : State) : State :=
  if bool_decide (key = toggleMovementKey) then st
  else mkState (isMoving st) (headingAngleRadians st) (trailMask st)
         (recentPositions st) (filter (fun k => k ≠ key) (pressedKeys st))
         (positionPixels st) (lastTimestampMs st) (clientWidth st)
         (clientHeight st).

(** Run at start and on every resize.  It does not clear the recent buffer,
    the heading or the movement flag. *)
Definition setCanvasSizeForHiDPI (window : Window) (st : State)
    : Rng -> option (State * Rng) := fun rng =>
  let widthCssPixels := innerWidth window in
  let heightCssPixels := innerHeight window in
  match createTrailMask widthCssPixels heightCssPixels with
  | None => None
  | Some mask0 =>
    Some ((
      let radius := radiusPixels in
      ux <- Math_random ;;
      uy <- Math_random ;;
      let position :=
        mkVector2D (radius + ux * (inject_Z widthCssPixels - 2 * radius))
                   (radius + uy * (inject_Z heightCssPixels - 2 * radius)) in
      let rounded := roundedPosition position in
      ret (mkState (isMoving st) (headingAngleRadians st)
             (markVisitedCircle mask0 (x rounded) (y rounded) radiusPixels)
             (pushRecentPosition (recentPositions st) rounded)
             (pressedKeys st) position (lastTimestampMs st)
             widthCssPixels heightCssPixels)) rng)
  end.

Section GameLoop.

Variables (Math_cos Math_sin : Q -> Q) (Math_PI : Q).

Definition turnSpeedRadiansPerSecond : Q := (Math_PI / 2)%Q.

Definition step (nowMs : Q) (st : State) : State :=
  let deltaTimeSeconds := ((nowMs - lastTimestampMs st) / 1000)%Q in
  let heading1 :=
    if bool_decide (turnLeftKey ∈ pressedKeys st)
    then (headingAngleRadians st - turnSpeedRadiansPerSecond * deltaTimeSeconds)%Q
    else headingAngleRadians st in
  let heading :=
    if bool_decide (turnRightKey ∈ pressedKeys st)
    then (heading1 + turnSpeedRadiansPerSecond * deltaTimeSeconds)%Q
    else heading1 in
  if isMoving st then
    let deltaX := (Math_cos heading * forwardSpeedPixelsPerSecond * deltaTimeSeconds)%Q in
    let deltaY := (Math_sin heading * forwardSpeedPixelsPerSecond * deltaTimeSeconds)%Q in
    let widthCssPixels := inject_Z (clientWidth st) in
    let heightCssPixels := inject_Z (clientHeight st) in
    let dotRadius := radiusPixels in
    let nextX := Math_max dotRadius
                   (Math_min (widthCssPixels - dotRadius)
                      (x (positionPixels st) + deltaX))%Q in
    let nextY := Math_max dotRadius
                   (Math_min (heightCssPixels - dotRadius)
                      (y (positionPixels st) + deltaY))%Q in
    let rounded := roundedPosition (mkVector2D nextX nextY) in
    let collides :=
      collidesWithTrailExcludingRecent (trailMask st) rounded radiusPixels
        (recentPositions st) extraIgnoreMarginPixels in
    if negb collides then
      mkState true heading
        (markVisitedCircle (trailMask st) (x rounded) (y rounded) radiusPixels)
        (pushRecentPosition (recentPositions st) rounded)
        (pressedKeys st) (mkVector2D nextX nextY) nowMs
        (clientWidth st) (clientHeight st)
    else
      mkState false heading (trailMask st) (recentPositions st) (pressedKeys st)
        (positionPixels st) nowMs (clientWidth st) (clientHeight st)
  else
    mkState false heading (trailMask st) (recentPositions st) (pressedKeys st)
      (positionPixels st) nowMs (clientWidth st) (clientHeight st).

End GameLoop.

End SinglePlayer.

(** A single-player round on a 100 x 100 surface: the dot stands on its last
    stamp at (50, 50), heading right. *)
Definition singleSample (moving : bool) : SinglePlayer.State :=
  SinglePlayer.mkState moving 0
    (SinglePlayer.markVisitedCircle blankMask 50 50 2)
    [mkVector2D 50 50] [] (mkVector2D 50 50) 0 100 100.

(** A running round in which both players are inside a gap, heading right:
    player one at (56, 52), player two at (20, 20); the pixel (30, 30)
    carries old trail. *)
Definition gapRound : RoundState :=
  mkRoundState true false (writeOccupancy blankMask (30 * 100 + 30) 1)
    (samplePlayer "Player 1" "#66e3ff" (mkVector2D 56 52) true 3 (mkGapState true 0 1))
    (samplePlayer "Player 2" "#ffd166" (mkVector2D 20 20) true 3 (mkGapState true 0 1))
    [] 0 100 100.

(** A single-player round in which the dot, moving right from its last stamp
    at (50, 50), has old trail on the pixel (53, 50) ahead. *)
Definition singleBlocked : SinglePlayer.State :=
  SinglePlayer.mkState true 0
    (writeOccupancy (SinglePlayer.markVisitedCircle blankMask 50 50 2)
       (50 * 100 + 53) 1)
    [mkVector2D 50 50] [] (mkVector2D 50 50) 0 100 100.

(** * Properties *)

(** ** Loops and array accesses *)

Lemma elem_of_loopRange (lo hi k : Z) : k ∈ loopRange lo hi <-> lo <= k <= hi.
Proof. unfold loopRange. rewrite elem_of_seqZ. lia. Qed.

Lemma readOccupancy_write_eq (m : TrailMask) (i v : Z) :
  is_Some (readOccupancy m i) -> readOccupancy (writeOccupancy m i v) i = Some v.
Proof.
  unfold readOccupancy, writeOccupancy.
  destruct (i <? 0) eqn:Hi; simpl; [intros [? ?]; discriminate|].
  intros Hs. apply lookup_lt_is_Some in Hs.
  by apply list_lookup_insert_eq.
Qed.

Lemma readOccupancy_write_ne (m : TrailMask) (i j v : Z) :
  i <> j -> readOccupancy (writeOccupancy m i v) j = readOccupancy m j.
Proof.
  unfold readOccupancy, writeOccupancy. intros Hne.
  destruct (i <? 0) eqn:Hi; simpl; [done|].
  destruct (j <? 0) eqn:Hj; [done|].
  apply list_lookup_insert_ne. lia.
Qed.

Lemma stamped_nothing (S : Z -> Prop) (m : TrailMask) :
  (forall j, ~ S j) -> stamped S m m.
Proof. intros HS. split; auto. intros j Hj. by destruct (HS j). Qed.

Lemma stamped_write (m : TrailMask) (i : Z) :
  stamped (fun j => j = i) m (writeOccupancy m i 1).
Proof.
  split.
  - unfold writeOccupancy. by destruct (i <? 0).
  - unfold writeOccupancy. by destruct (i <? 0).
  - unfold writeOccupancy. destruct (i <? 0); [done|]. simpl. apply length_insert.
  - intros j Hj. destruct (decide (i = j)) as [->|Hne].
    + apply readOccupancy_write_eq. by rewrite Hj.
    + by rewrite readOccupancy_write_ne.
  - intros j -> Hs. by apply readOccupancy_write_eq.
  - intros j Hne. apply readOccupancy_write_ne. congruence.
Qed.

Lemma stamped_compose (S1 S2 S : Z -> Prop) (m m1 m2 : TrailMask) :
  stamped S1 m m1 -> stamped S2 m1 m2 ->
  (forall j, S j <-> S1 j \/ S2 j) ->
  stamped S m m2.
Proof.
  intros H1 H2 HS. split.
  - by rewrite (stamped_width _ _ _ H2), (stamped_width _ _ _ H1).
  - by rewrite (stamped_height _ _ _ H2), (stamped_height _ _ _ H1).
  - by rewrite (stamped_length _ _ _ H2), (stamped_length _ _ _ H1).
  - intros j Hj. apply (stamped_keep _ _ _ H2), (stamped_keep _ _ _ H1), Hj.
  - intros j Hj Hs. apply HS in Hj as [Hj|Hj].
    + apply (stamped_keep _ _ _ H2), (stamped_set _ _ _ H1); auto.
    + apply (stamped_set _ _ _ H2); auto.
      unfold readOccupancy in *. destruct (j <? 0); [done|].
      apply lookup_lt_is_Some in Hs. apply lookup_lt_is_Some.
      by rewrite (stamped_length _ _ _ H1).
  - intros j Hj.
    rewrite (stamped_frame _ _ _ H2), (stamped_frame _ _ _ H1); auto;
      intros ?; apply Hj, HS; auto.
Qed.

(** A loop whose every iteration stamps a set stamps their union. *)
Lemma stamped_foldl {A} (body : TrailMask -> A -> TrailMask)
    (S : A -> Z -> Prop) (l : list A) :
  (forall m a, a ∈ l -> stamped (S a) m (body m a)) ->
  forall m, stamped (fun j => exists a, a ∈ l /\ S a j) m (foldl body m l).
Proof.
  induction l as [|a l IH]; intros Hbody m; simpl.
  - apply stamped_nothing. intros j (a & Ha & _). by apply elem_of_nil in Ha.
  - eapply stamped_compose.
    + apply (Hbody m a). left.
    + apply IH. intros m' a' Ha'. apply Hbody. by right.
    + intros j. split.
      * intros (a' & Ha' & HS). apply elem_of_cons in Ha' as [->|Ha']; eauto.
      * intros [HS|(a' & Ha' & HS)]; [exists a|exists a']; split; auto;
          [left|by right].
Qed.

(** The set of array indices a stamp of the circle writes to. *)
Lemma markVisitedCircle_stamped (m : TrailMask) (cx cy r : Q) :
  stamped (fun j => exists px py,
             inClampedBox m cx cy r px py /\
             (distanceSquaredTo px py cx cy <= r * r)%Q /\
             j = py * widthPixels m + px)
          m (markVisitedCircle m cx cy r).
Proof.
  unfold markVisitedCircle.
  eapply stamped_compose;
    [apply stamped_foldl with (S := (fun py j => exists px,
              inClampedBox m cx cy r px py /\
              (distanceSquaredTo px py cx cy <= r * r)%Q /\
              j = py * widthPixels m + px))
    |apply (stamped_nothing (fun _ => False)); tauto|].
  - intros m1 py Hpy. apply elem_of_loopRange in Hpy.
    eapply stamped_compose;
      [apply stamped_foldl with (S := (fun px j =>
                (distanceSquaredTo px py cx cy <= r * r)%Q /\
                j = py * widthPixels m + px))
      |apply (stamped_nothing (fun _ => False)); tauto|].
    + intros m2 px Hpx.
      cbv beta zeta. unfold distanceSquaredTo.
      destruct (Qle_bool _ _) eqn:Hd.
      * apply Qle_bool_iff in Hd.
        eapply stamped_compose;
          [apply stamped_write|apply (stamped_nothing (fun _ => False)); tauto|].
        intros j; simpl. intuition.
      * apply stamped_nothing. intros j [Hle _].
        apply Qle_bool_iff in Hle. congruence.
    + intros j; simpl. split.
      * intros (px & Hbox & Hd & ->). left. exists px. split; [|done].
        apply elem_of_loopRange, Hbox.
      * intros [(px & Hpx & Hd & ->)|[]]. exists px. split; [|done].
        apply elem_of_loopRange in Hpx. done.
  - intros j; simpl. split.
    + intros (px & py & Hbox & Hd & ->). left. exists py. split.
      * apply elem_of_loopRange, Hbox.
      * eauto.
    + intros [(py & Hpy & px & Hbox & Hd & ->)|[]]. eauto.
Qed.

(** ** Pixels and their array entries *)

Lemma cell_index_inj (w px py px' py' : Z) :
  0 <= px < w -> 0 <= px' < w ->
  py * w + px = py' * w + px' -> px = px' /\ py = py'.
Proof.
  intros Hx Hx' Heq.
  assert (py = py') as -> by nia. lia.
Qed.

Lemma inClampedBox_column (m : TrailMask) (cx cy r : Q) (px py : Z) :
  inClampedBox m cx cy r px py -> 0 <= px < widthPixels m.
Proof. unfold inClampedBox. lia. Qed.

Lemma inClampedBox_inGrid (m : TrailMask) (cx cy r : Q) (px py : Z) :
  inClampedBox m cx cy r px py -> inGrid m px py.
Proof. unfold inClampedBox, inGrid. lia. Qed.

Lemma wellFormed_cell (m : TrailMask) (px py : Z) :
  wellFormed m -> inGrid m px py -> is_Some (cellOccupancy m px py).
Proof.
  intros (Hw & Hh & Hlen) [Hx Hy]. unfold cellOccupancy, readOccupancy.
  destruct (Z.ltb_spec (py * widthPixels m + px) 0) as [Hneg|_]; [nia|].
  apply lookup_lt_is_Some. rewrite Hlen. nia.
Qed.

Lemma createTrailMask_spec (w h : Z) (m : TrailMask) :
  createTrailMask w h = Some m ->
  widthPixels m = w /\ heightPixels m = h /\
  occupancy m = replicate (Z.to_nat (w * h)) 0.
Proof.
  unfold createTrailMask. destruct (w * h <? 0); [discriminate|].
  by intros [= <-].
Qed.

Lemma createTrailMask_total (w h : Z) :
  0 <= w -> 0 <= h -> is_Some (createTrailMask w h).
Proof.
  intros Hw Hh. unfold createTrailMask.
  destruct (Z.ltb_spec (w * h) 0); [nia|eauto].
Qed.

(** A fresh mask has no occupied pixel: every entry is 0. *)
Lemma createTrailMask_empty (w h : Z) (m : TrailMask) (j : Z) (v : Z) :
  createTrailMask w h = Some m -> readOccupancy m j = Some v -> v = 0.
Proof.
  intros (_ & _ & Hocc)%createTrailMask_spec. unfold readOccupancy.
  destruct (j <? 0); [discriminate|]. rewrite Hocc.
  by intros [-> _]%lookup_replicate.
Qed.

(** The pixels a stamp occupies, and those it leaves alone. *)
Lemma markVisitedCircle_cell (m : TrailMask) (cx cy r : Q) (px py : Z) :
  inGrid m px py ->
  let m' := markVisitedCircle m cx cy r in
  (inClampedBox m cx cy r px py ->
   (distanceSquaredTo px py cx cy <= r * r)%Q ->
   is_Some (cellOccupancy m px py) -> occupied m' px py) /\
  (~ (inClampedBox m cx cy r px py /\
      (distanceSquaredTo px py cx cy <= r * r)%Q) ->
   cellOccupancy m' px py = cellOccupancy m px py).
Proof.
  intros Hgrid m'. pose proof (markVisitedCircle_stamped m cx cy r) as Hst.
  fold m' in Hst. unfold occupied, cellOccupancy.
  rewrite (stamped_width _ _ _ Hst). split.
  - intros Hbox Hd Hs. apply (stamped_set _ _ _ Hst); [|done]. eauto.
  - intros Hout. apply (stamped_frame _ _ _ Hst).
    intros (px' & py' & Hbox & Hd & Heq).
    apply cell_index_inj in Heq as [-> ->].
    + by apply Hout.
    + apply Hgrid.
    + by eapply inClampedBox_column.
Qed.

(** A stamp never clears a pixel. *)
Lemma markVisitedCircle_kept (m : TrailMask) (cx cy r : Q) (px py : Z) :
  occupied m px py -> occupied (markVisitedCircle m cx cy r) px py.
Proof.
  pose proof (markVisitedCircle_stamped m cx cy r) as Hst.
  unfold occupied, cellOccupancy. rewrite (stamped_width _ _ _ Hst).
  apply (stamped_keep _ _ _ Hst).
Qed.

(** ** The collision scan *)

Lemma existsb_elem_of {A} (f : A -> bool) (l : list A) :
  existsb f l = true <-> exists a, a ∈ l /\ f a = true.
Proof.
  rewrite existsb_exists. split; intros (a & Ha & Hf); exists a;
    (split; [by apply list_elem_of_In|done]).
Qed.

Lemma belongsToIgnored_false (px py : Z) (pts : list Vector2D) (d2 : Q) :
  belongsToIgnored px py pts d2 = false <->
  forall p, p ∈ pts -> ~ (distanceSquaredTo px py (x p) (y p) <= d2)%Q.
Proof.
  unfold belongsToIgnored. rewrite <- not_true_iff_false, existsb_elem_of.
  split.
  - intros Hno p Hp Hle. apply Hno. exists p. split; [done|].
    by apply Qle_bool_iff.
  - intros Hall (p & Hp & Hle). apply (Hall p Hp). by apply Qle_bool_iff in Hle.
Qed.

Lemma pixelCollides_true (m : TrailMask) (c : Vector2D) (r : Q)
    (pts : list Vector2D) (mg : Q) (px py : Z) :
  pixelCollides m c r pts mg px py = true <->
  (distanceSquaredTo px py (x c) (y c) <= r * r)%Q /\
  occupied m px py /\
  forall p, p ∈ pts ->
    ~ (distanceSquaredTo px py (x p) (y p) <= (r + mg) * (r + mg))%Q.
Proof.
  unfold pixelCollides, occupied, cellOccupancy. cbv zeta.
  fold (distanceSquaredTo px py (x c) (y c)).
  rewrite <- belongsToIgnored_false.
  destruct (Qle_bool _ (r * r)) eqn:Hd; simpl.
  - apply Qle_bool_iff in Hd. case_bool_decide as Hocc.
    + rewrite negb_true_iff. tauto.
    + split; [discriminate|tauto].
  - split; [discriminate|]. intros [Hle _]. apply Qle_bool_iff in Hle. congruence.
Qed.

Lemma elem_of_scanOrder (m : TrailMask) (cx cy r : Q) (px py : Z) :
  (px, py) ∈ scanOrder m cx cy r <-> inClampedBox m cx cy r px py.
Proof.
  unfold scanOrder, inClampedBox. rewrite list_elem_of_bind. split.
  - intros (qy & Hin & Hy). apply list_elem_of_bind in Hin as (qx & Hin & Hx).
    apply list_elem_of_singleton in Hin as [= -> ->].
    apply elem_of_loopRange in Hx, Hy. done.
  - intros [Hx Hy]. exists py. split; [|by apply elem_of_loopRange].
    apply list_elem_of_bind. exists px. split; [|by apply elem_of_loopRange].
    by apply list_elem_of_singleton.
Qed.

Lemma collides_true (m : TrailMask) (c : Vector2D) (r : Q)
    (pts : list Vector2D) (mg : Q) :
  collidesWithTrailExcludingPoints m c r pts mg = true <->
  exists px py,
    inClampedBox m (x c) (y c) r px py /\
    pixelCollides m c r pts mg px py = true.
Proof.
  unfold collidesWithTrailExcludingPoints, inClampedBox. cbv zeta.
  rewrite existsb_elem_of. split.
  - intros (py & Hy & Hrow). apply existsb_elem_of in Hrow as (px & Hx & Hc).
    apply elem_of_loopRange in Hx, Hy. eauto.
  - intros (px & py & [Hx Hy] & Hc). exists py.
    split; [by apply elem_of_loopRange|].
    apply existsb_elem_of. exists px. split; [by apply elem_of_loopRange|done].
Qed.

Lemma bool_eq_iff (a b : bool) : (a = true <-> b = true) -> a = b.
Proof. destruct a, b; intuition congruence. Qed.

(** C1: [collidesWithTrailExcludingPoints] returns [true] exactly when some
    pixel of the circle's bounding box clamped to the grid has squared
    distance at most [r * r] to the center, has occupancy 1 and lies within
    distance [r + m] of no excluded point.  Hence the result depends neither
    on the order of the excluded points nor on the order in which the pixels
    of the box are scanned: testing the pixels in any other order, stopping
    at the first hit, gives the same answer. *)
Theorem collidesWithTrailExcludingPoints_spec
    (mask : TrailMask) (center : Vector2D) (r : Q) (pts : list Vector2D) (m : Q) :
  (0 <= r)%Q -> (0 <= m)%Q ->
  (collidesWithTrailExcludingPoints mask center r pts m = true <->
   exists px py,
     inClampedBox mask (x center) (y center) r px py /\
     (distanceSquaredTo px py (x center) (y center) <= r * r)%Q /\
     occupied mask px py /\
     forall p, p ∈ pts -> ~ withinDistance (r + m) px py p) /\
  (forall pts', pts ≡ₚ pts' ->
     collidesWithTrailExcludingPoints mask center r pts' m =
     collidesWithTrailExcludingPoints mask center r pts m) /\
  (forall cells, cells ≡ₚ scanOrder mask (x center) (y center) r ->
     existsb (fun c => pixelCollides mask center r pts m c.1 c.2) cells =
     collidesWithTrailExcludingPoints mask center r pts m).
Proof.
  intros Hr Hm.
  assert (Hrm : (0 <= r + m)%Q).
  { rewrite <- (Qplus_0_l 0). by apply Qplus_le_compat. }
  split; [|split].
  - rewrite collides_true. unfold withinDistance.
    split; intros (px & py & Hbox & H); exists px, py; (split; [done|]).
    + apply pixelCollides_true in H as (Hd & Hocc & Hpts).
      repeat split; auto. intros p Hp [_ Hle]. by apply (Hpts p Hp).
    + destruct H as (Hd & Hocc & Hpts). apply pixelCollides_true.
      repeat split; auto. intros p Hp Hle. by apply (Hpts p Hp).
  - intros pts' Hperm. apply bool_eq_iff. rewrite !collides_true.
    split; intros (px & py & Hbox & H); exists px, py; (split; [done|]);
      apply pixelCollides_true in H as (Hd & Hocc & Hpts);
      apply pixelCollides_true; repeat split; auto;
      intros p Hp; apply Hpts; [by rewrite <- Hperm|by rewrite Hperm].
  - intros cells Hperm. apply bool_eq_iff.
    rewrite collides_true, existsb_elem_of. split.
    + intros ([px py] & Hin & Hc). rewrite Hperm in Hin.
      apply elem_of_scanOrder in Hin. eauto.
    + intros (px & py & Hbox & Hc). exists (px, py). split; [|done].
      rewrite Hperm. by apply elem_of_scanOrder.
Qed.

Lemma collidesWithTrailExcludingPoints_spec_witness :
  collidesWithTrailExcludingPoints
    (mkTrailMask 3 3 [0; 0; 0; 0; 1; 0; 0; 0; 0]) (mkVector2D 1 1) 1
    [mkVector2D 0 0; mkVector2D 1 1] 0
  = collidesWithTrailExcludingPoints
    (mkTrailMask 3 3 [0; 0; 0; 0; 1; 0; 0; 0; 0]) (mkVector2D 1 1) 1
    [mkVector2D 1 1; mkVector2D 0 0] 0.
Proof.
  apply (collidesWithTrailExcludingPoints_spec
           (mkTrailMask 3 3 [0; 0; 0; 0; 1; 0; 0; 0; 0]) (mkVector2D 1 1) 1
           [mkVector2D 1 1; mkVector2D 0 0] 0).
  - discriminate.
  - discriminate.
  - apply perm_swap.
Defined.

(** C10: [markVisitedCircle] only adds trail.  It keeps the size of the grid
    and of the array; every pixel that was occupied stays occupied; every
    pixel of the grid whose squared distance to the center exceeds
    [radius * radius], and every pixel outside the clamped bounding box, keeps
    its entry. *)
Theorem markVisitedCircle_only_adds
    (mask : TrailMask) (centerX centerY radius : Q) (px py : Z) :
  inGrid mask px py ->
  let mask' := markVisitedCircle mask centerX centerY radius in
  widthPixels mask' = widthPixels mask /\
  heightPixels mask' = heightPixels mask /\
  length (occupancy mask') = length (occupancy mask) /\
  (occupied mask px py -> occupied mask' px py) /\
  ((radius * radius < distanceSquaredTo px py centerX centerY)%Q ->
   cellOccupancy mask' px py = cellOccupancy mask px py) /\
  (~ inClampedBox mask centerX centerY radius px py ->
   cellOccupancy mask' px py = cellOccupancy mask px py).
Proof.
  intros Hgrid mask'.
  pose proof (markVisitedCircle_stamped mask centerX centerY radius) as Hst.
  fold mask' in Hst.
  destruct (markVisitedCircle_cell mask centerX centerY radius px py Hgrid)
    as [_ Hframe]. fold mask' in Hframe.
  split; [apply Hst|]. split; [apply Hst|]. split; [apply Hst|].
  split; [|split].
  - apply markVisitedCircle_kept.
  - intros Hfar. apply Hframe. intros [_ Hle].
    by apply Qle_not_lt in Hle.
  - intros Hout. apply Hframe. tauto.
Qed.

Lemma markVisitedCircle_only_adds_witness :
  occupied
    (markVisitedCircle (mkTrailMask 3 3 [0; 0; 0; 0; 0; 0; 0; 0; 1]) 0 0 1) 2 2 /\
  cellOccupancy
    (markVisitedCircle (mkTrailMask 3 3 [0; 0; 0; 0; 0; 0; 0; 0; 1]) 0 0 1) 2 1
    = Some 0.
Proof.
  destruct (markVisitedCircle_only_adds
              (mkTrailMask 3 3 [0; 0; 0; 0; 0; 0; 0; 0; 1]) 0 0 1 2 2)
    as (_ & _ & _ & Hkeep & _); [unfold inGrid; simpl; lia|].
  destruct (markVisitedCircle_only_adds
              (mkTrailMask 3 3 [0; 0; 0; 0; 0; 0; 0; 0; 1]) 0 0 1 2 1)
    as (_ & _ & _ & _ & Hfar & _); [unfold inGrid; simpl; lia|].
  split.
  - apply Hkeep. reflexivity.
  - rewrite Hfar; reflexivity.
Defined.

(** ** Stamping, then testing *)

Lemma Math_floor_below (c : Z) (r : Q) :
  (0 <= r)%Q -> Math_floor (inject_Z c - r) <= c.
Proof.
  intros Hr. unfold Math_floor. rewrite <- (Qfloor_Z c) at 2.
  apply Qfloor_resp_le. lra.
Qed.

Lemma Math_ceil_above (c : Z) (r : Q) :
  (0 <= r)%Q -> c <= Math_ceil (inject_Z c + r).
Proof.
  intros Hr. unfold Math_ceil. rewrite <- (Qceiling_Z c) at 1.
  apply Qceiling_resp_le. lra.
Qed.

Lemma distanceSquaredTo_integer (px py cx cy : Z) :
  (distanceSquaredTo px py (inject_Z cx) (inject_Z cy) ==
   inject_Z ((px - cx) * (px - cx) + (py - cy) * (py - cy)))%Q.
Proof.
  unfold distanceSquaredTo.
  rewrite inject_Z_plus, !inject_Z_mult. unfold Z.sub.
  rewrite !inject_Z_plus, !inject_Z_opp. ring.
Qed.

(** An integer center whose circle lies in the grid is a pixel of the
    clamped bounding box. *)
Lemma center_inClampedBox (m : TrailMask) (cx cy : Z) (r : Q) :
  (0 <= r)%Q -> circleInsideGrid m (inject_Z cx) (inject_Z cy) r ->
  inClampedBox m (inject_Z cx) (inject_Z cy) r cx cy.
Proof.
  intros Hr (Hx0 & Hx1 & Hy0 & Hy1).
  assert (0 <= cx) by (rewrite Zle_Qle; change (inject_Z 0) with 0%Q; lra).
  assert (0 <= cy) by (rewrite Zle_Qle; change (inject_Z 0) with 0%Q; lra).
  assert (cx <= widthPixels m - 1) by (rewrite Zle_Qle; lra).
  assert (cy <= heightPixels m - 1) by (rewrite Zle_Qle; lra).
  pose proof (Math_floor_below cx r Hr). pose proof (Math_ceil_above cx r Hr).
  pose proof (Math_floor_below cy r Hr). pose proof (Math_ceil_above cy r Hr).
  unfold inClampedBox. lia.
Qed.

Lemma center_distance_zero (cx cy : Z) (r : Q) :
  (distanceSquaredTo cx cy (inject_Z cx) (inject_Z cy) <= r * r)%Q.
Proof. unfold distanceSquaredTo. nra. Qed.

(** A center with integer coordinates: the center pixel is stamped, and with
    radius 0 it is the only pixel the stamp may change. *)
Lemma stamp_integer_center (mask : TrailMask) (cx cy : Z) (r : Q) :
  wellFormed mask -> (0 <= r)%Q ->
  circleInsideGrid mask (inject_Z cx) (inject_Z cy) r ->
  let center := mkVector2D (inject_Z cx) (inject_Z cy) in
  let mask' := markVisitedCircle mask (x center) (y center) r in
  collidesWithTrailExcludingPoints mask' center r [] r = true /\
  occupied mask' cx cy /\
  ((r == 0)%Q -> forall px py, inGrid mask px py -> (px, py) <> (cx, cy) ->
     cellOccupancy mask' px py = cellOccupancy mask px py).
Proof.
  intros Hwf Hr Hin center mask'. simpl in mask'.
  pose proof (center_inClampedBox mask cx cy r Hr Hin) as Hbox.
  pose proof (markVisitedCircle_stamped mask (inject_Z cx) (inject_Z cy) r) as Hst.
  fold mask' in Hst.
  assert (Hocc : occupied mask' cx cy).
  { apply (markVisitedCircle_cell mask (inject_Z cx) (inject_Z cy) r cx cy);
      eauto using inClampedBox_inGrid, center_distance_zero, wellFormed_cell. }
  split; [|split]; [|done|].
  - apply collides_true. exists cx, cy. split.
    + unfold inClampedBox in *. simpl.
      by rewrite (stamped_width _ _ _ Hst), (stamped_height _ _ _ Hst).
    + apply pixelCollides_true. split; [apply center_distance_zero|].
      split; [done|]. intros p Hp. by apply elem_of_nil in Hp.
  - intros Hzero px py Hgrid Hne.
    apply (markVisitedCircle_cell mask (inject_Z cx) (inject_Z cy) r px py);
      [done|].
    intros [_ Hd]. rewrite distanceSquaredTo_integer in Hd.
    assert (Hd0 : (inject_Z ((px - cx) * (px - cx) + (py - cy) * (py - cy))
                   <= inject_Z 0)%Q).
    { change (inject_Z 0) with 0%Q. rewrite Hzero in Hd.
      eapply Qle_trans; [apply Hd|]. discriminate. }
    rewrite <- Zle_Qle in Hd0.
    pose proof (Z.square_nonneg (px - cx)). pose proof (Z.square_nonneg (py - cy)).
    assert (Hx : (px - cx) * (px - cx) = 0) by lia.
    assert (Hy : (py - cy) * (py - cy) = 0) by lia.
    apply Z.mul_eq_0 in Hx, Hy. apply Hne. f_equal; lia.
Qed.

Lemma Qsquare_nonneg (v : Q) : (0 <= v * v)%Q.
Proof. nra. Qed.

Lemma square_bound (a c r s : Q) :
  (0 <= r)%Q -> (0 <= s)%Q -> ((a - c) * (a - c) + s <= r * r)%Q ->
  (c - r <= a <= c + r)%Q.
Proof.
  intros Hr Hs Hd. split.
  - destruct (Qlt_le_dec a (c - r)) as [Hlt|]; [|assumption].
    assert (0 < (c - a - r) * (c - a + r))%Q by (apply Qmult_lt_0_compat; lra).
    nra.
  - destruct (Qlt_le_dec (c + r) a) as [Hlt|]; [|assumption].
    assert (0 < (a - c - r) * (a - c + r))%Q by (apply Qmult_lt_0_compat; lra).
    nra.
Qed.

(** A pixel within distance [r] of the center of a circle that lies inside
    the grid is a pixel of the clamped bounding box. *)
Lemma pixel_in_circle_inClampedBox (m : TrailMask) (cx cy r : Q) (px py : Z) :
  (0 <= r)%Q -> circleInsideGrid m cx cy r ->
  (distanceSquaredTo px py cx cy <= r * r)%Q ->
  inClampedBox m cx cy r px py.
Proof.
  intros Hr (Hx0 & Hx1 & Hy0 & Hy1) Hd. unfold distanceSquaredTo in Hd.
  assert (Hx : (cx - r <= inject_Z px <= cx + r)%Q).
  { apply (square_bound _ _ _ ((inject_Z py - cy) * (inject_Z py - cy)));
      [done|apply Qsquare_nonneg|done]. }
  assert (Hy : (cy - r <= inject_Z py <= cy + r)%Q).
  { apply (square_bound _ _ _ ((inject_Z px - cx) * (inject_Z px - cx)));
      [done|apply Qsquare_nonneg|by rewrite Qplus_comm]. }
  pose proof (Qfloor_le (cx - r)) as Fx. pose proof (Qle_ceiling (cx + r)) as Cx.
  pose proof (Qfloor_le (cy - r)) as Fy. pose proof (Qle_ceiling (cy + r)) as Cy.
  assert (Math_floor (cx - r) <= px)
    by (rewrite Zle_Qle; eapply Qle_trans; [apply Fx|apply Hx]).
  assert (px <= Math_ceil (cx + r))
    by (rewrite Zle_Qle; eapply Qle_trans; [apply Hx|apply Cx]).
  assert (Math_floor (cy - r) <= py)
    by (rewrite Zle_Qle; eapply Qle_trans; [apply Fy|apply Hy]).
  assert (py <= Math_ceil (cy + r))
    by (rewrite Zle_Qle; eapply Qle_trans; [apply Hy|apply Cy]).
  assert (0 <= px).
  { rewrite Zle_Qle. change (inject_Z 0) with 0%Q.
    eapply Qle_trans; [apply Hx0|apply Hx]. }
  assert (0 <= py).
  { rewrite Zle_Qle. change (inject_Z 0) with 0%Q.
    eapply Qle_trans; [apply Hy0|apply Hy]. }
  assert (px <= widthPixels m - 1)
    by (rewrite Zle_Qle; eapply Qle_trans; [apply Hx|apply Hx1]).
  assert (py <= heightPixels m - 1)
    by (rewrite Zle_Qle; eapply Qle_trans; [apply Hy|apply Hy1]).
  unfold inClampedBox. lia.
Qed.

(** The nearest pixel coordinate is at most half a pixel away. *)
Lemma Math_round_near (c : Q) :
  ((inject_Z (Math_round c) - c) * (inject_Z (Math_round c) - c) <= 1 # 4)%Q.
Proof.
  unfold Math_round.
  pose proof (Qfloor_le (c + (1 # 2))) as Hlo.
  pose proof (Qlt_floor (c + (1 # 2))) as Hhi.
  rewrite inject_Z_plus in Hhi. change (inject_Z 1) with 1%Q in Hhi.
  set (a := inject_Z (Qfloor (c + (1 # 2)))) in *. clearbody a.
  nra.
Qed.

(** C3 (amended): for a mask with one array entry per pixel, a radius
    [r >= 0] and any center whose circle lies fully inside the grid, after
    [markVisitedCircle] the query at the same center with no excluded point
    and margin [r] returns [true] exactly when some pixel lies within
    distance [r] of the center.  That is so whenever [r * r >= 1/2] (hence
    for the dot radius 2, at every center), and whenever the center has
    integer coordinates: then the center pixel is occupied, and with radius 0
    it is the only pixel the stamp may change. *)
Theorem stamp_then_collides (mask : TrailMask) (cx cy r : Q) :
  wellFormed mask -> (0 <= r)%Q -> circleInsideGrid mask cx cy r ->
  let center := mkVector2D cx cy in
  let mask' := markVisitedCircle mask cx cy r in
  (collidesWithTrailExcludingPoints mask' center r [] r = true <->
   exists px py, (distanceSquaredTo px py cx cy <= r * r)%Q) /\
  ((1 # 2 <= r * r)%Q ->
   collidesWithTrailExcludingPoints mask' center r [] r = true) /\
  (forall kx ky, cx = inject_Z kx -> cy = inject_Z ky ->
     collidesWithTrailExcludingPoints mask' center r [] r = true /\
     occupied mask' kx ky /\
     ((r == 0)%Q -> forall px py, inGrid mask px py -> (px, py) <> (kx, ky) ->
        cellOccupancy mask' px py = cellOccupancy mask px py)).
Proof.
  intros Hwf Hr Hin center mask'.
  pose proof (markVisitedCircle_stamped mask cx cy r) as Hst. fold mask' in Hst.
  assert (Hreach : forall px py,
             (distanceSquaredTo px py cx cy <= r * r)%Q ->
             collidesWithTrailExcludingPoints mask' center r [] r = true).
  { intros px py Hd.
    pose proof (pixel_in_circle_inClampedBox mask cx cy r px py Hr Hin Hd) as Hbox.
    apply collides_true. exists px, py. split.
    - unfold inClampedBox in *. simpl.
      by rewrite (stamped_width _ _ _ Hst), (stamped_height _ _ _ Hst).
    - apply pixelCollides_true. split; [done|]. split.
      + apply (markVisitedCircle_cell mask cx cy r px py);
          eauto using inClampedBox_inGrid, wellFormed_cell.
      + intros p Hp. by apply elem_of_nil in Hp. }
  split; [|split].
  - split.
    + intros Hc. apply collides_true in Hc as (px & py & _ & Hc).
      apply pixelCollides_true in Hc as (Hd & _). eauto.
    + intros (px & py & Hd). eauto.
  - intros Hhalf. apply (Hreach (Math_round cx) (Math_round cy)).
    unfold distanceSquaredTo.
    pose proof (Math_round_near cx) as Nx. pose proof (Math_round_near cy) as Ny.
    set (a := inject_Z (Math_round cx)) in *.
    set (b := inject_Z (Math_round cy)) in *. clearbody a b.
    lra.
  - intros kx ky -> ->.
    apply (stamp_integer_center mask kx ky r Hwf Hr Hin).
Qed.

Lemma stamp_then_collides_witness :
  collidesWithTrailExcludingPoints
    (markVisitedCircle (mkTrailMask 6 6 (replicate 36 0)) (5 # 2) (5 # 2) 2)
    (mkVector2D (5 # 2) (5 # 2)) 2 [] 2 = true.
Proof.
  apply (stamp_then_collides (mkTrailMask 6 6 (replicate 36 0)) (5 # 2) (5 # 2) 2).
  - unfold wellFormed; simpl; lia.
  - discriminate.
  - unfold circleInsideGrid; simpl; repeat split; discriminate.
  - discriminate.
Defined.

(** C3 as stated fails for a center between pixels: on a fresh 10 x 10 mask
    the circle of radius 0 around (5.5, 5.5) lies inside the grid, yet the
    stamp reaches no pixel and the query returns [false]. *)
Lemma fractional_center_stamps_nothing :
  let mask := mkTrailMask 10 10 (replicate 100 0) in
  let mask' := markVisitedCircle mask (11 # 2) (11 # 2) 0 in
  createTrailMask 10 10 = Some mask /\
  wellFormed mask /\ (0 <= 0)%Q /\
  circleInsideGrid mask (11 # 2) (11 # 2) 0 /\
  collidesWithTrailExcludingPoints mask' (mkVector2D (11 # 2) (11 # 2)) 0 [] 0
    = false /\
  occupancy mask' = replicate 100 0.
Proof.
  repeat split; try reflexivity; discriminate.
Qed.

(** An excluded point at the center of the query neutralises every pixel the
    query looks at, whatever the mask holds. *)
Lemma collides_center_excluded (m : TrailMask) (p : Vector2D) (r mg : Q)
    (pts : list Vector2D) :
  (0 <= r)%Q -> (0 <= mg)%Q -> p ∈ pts ->
  collidesWithTrailExcludingPoints m p r pts mg = false.
Proof.
  intros Hr Hm Hp. apply not_true_iff_false. intros Hc.
  apply collides_true in Hc as (px & py & _ & Hc).
  apply pixelCollides_true in Hc as (Hd & _ & Hpts).
  apply (Hpts p Hp). nra.
Qed.

(** C7: for every point [p] and radius [r >= 0], on a fresh all-zero mask,
    right after [markVisitedCircle(mask, p, r)] the query
    [collidesWithTrailExcludingPoints(mask, p, r, [p], r)] returns [false]. *)
Theorem self_exclusion_neutralises_stamp
    (w h : Z) (mask : TrailMask) (p : Vector2D) (r : Q) :
  createTrailMask w h = Some mask -> (0 <= r)%Q ->
  collidesWithTrailExcludingPoints
    (markVisitedCircle mask (x p) (y p) r) p r [p] r = false.
Proof.
  intros _ Hr. apply collides_center_excluded; [done|done|].
  by apply list_elem_of_singleton.
Qed.

Lemma self_exclusion_neutralises_stamp_witness :
  collidesWithTrailExcludingPoints
    (markVisitedCircle (mkTrailMask 5 5 (replicate 25 0)) 2 2 2)
    (mkVector2D 2 2) 2 [mkVector2D 2 2] 2 = false /\
  collidesWithTrailExcludingPoints
    (markVisitedCircle (mkTrailMask 5 5 (replicate 25 0)) 2 2 2)
    (mkVector2D 2 2) 2 [] 2 = true.
Proof.
  split.
  - apply (self_exclusion_neutralises_stamp 5 5
             (mkTrailMask 5 5 (replicate 25 0)) (mkVector2D 2 2) 2).
    + reflexivity.
    + discriminate.
  - reflexivity.
Defined.

(** ** Recent-position and gap-corridor buffers *)

Lemma newest_length {A} (n : nat) (l : list A) : (length (newest n l) <= n)%nat.
Proof. unfold newest. rewrite length_drop. lia. Qed.

Lemma newest_short {A} (n : nat) (l : list A) :
  (length l <= n)%nat -> newest n l = l.
Proof.
  intros Hle. unfold newest.
  replace (length l - n)%nat with 0%nat by lia. apply drop_0.
Qed.

(** Evicting early or late gives the same buffer. *)
Lemma newest_app_newest {A} (n : nat) (l k : list A) :
  newest n (newest n l ++ k) = newest n (l ++ k).
Proof.
  unfold newest.
  rewrite <- (drop_app_le l k (length l - n)) by lia.
  rewrite drop_drop, length_drop, !length_app. f_equal. lia.
Qed.

Lemma pushRecent_newest (player : PlayerState) (point : Vector2D) :
  (length (recentPositions player) <= CONFIG.TRAIL.recentIgnoreFrameCount)%nat ->
  recentPositions (pushRecent player point) =
    newest CONFIG.TRAIL.recentIgnoreFrameCount (recentPositions player ++ [point]).
Proof.
  intros Hlen. unfold pushRecent, newest. simpl.
  rewrite length_app. simpl length.
  destruct (Nat.ltb_spec CONFIG.TRAIL.recentIgnoreFrameCount
              (length (recentPositions player) + 1)) as [Hlt|Hge].
  - f_equal. lia.
  - replace (length (recentPositions player) + 1
             - CONFIG.TRAIL.recentIgnoreFrameCount)%nat with 0%nat by lia.
    by rewrite drop_0.
Qed.

Lemma pushGapCorridor_newest (player : PlayerState) (point : Vector2D) :
  gapCorridor (pushGapCorridor player point) =
    newest CONFIG.GAPS.corridorMaxPoints (gapCorridor player ++ [point]).
Proof.
  unfold pushGapCorridor, newest. simpl.
  destruct (Nat.ltb_spec CONFIG.GAPS.corridorMaxPoints
              (length (gapCorridor player ++ [point]))) as [Hlt|Hge]; [done|].
  replace (length (gapCorridor player ++ [point])
           - CONFIG.GAPS.corridorMaxPoints)%nat with 0%nat by lia.
  by rewrite drop_0.
Qed.

(** C8: starting from buffers within their capacities (they are empty at
    spawn), after any sequence of [pushRecent] and [pushGapCorridor] calls
    the recent buffer holds at most 10 and the corridor at most 600 entries,
    and each buffer is the newest entries of everything that went into it,
    in insertion order: what is evicted is evicted from the front. *)
Theorem buffers_bounded_fifo (player : PlayerState) (ops : list BufferOp) :
  (length (recentPositions player) <= 10)%nat ->
  (length (gapCorridor player) <= 600)%nat ->
  let player' := foldl applyBufferOp player ops in
  (length (recentPositions player') <= 10)%nat /\
  (length (gapCorridor player') <= 600)%nat /\
  recentPositions player' =
    newest 10 (recentPositions player ++ recentPushed ops) /\
  gapCorridor player' =
    newest 600 (gapCorridor player ++ corridorPushed ops).
Proof.
  revert player. induction ops as [|op ops IH]; intros player Hr Hc; simpl.
  - rewrite !app_nil_r, !newest_short by done. done.
  - destruct op as [point|point]; simpl.
    + pose proof (pushRecent_newest player point Hr) as Hpush.
      destruct (IH (pushRecent player point)) as (Hr' & Hc' & Er & Ec).
      { rewrite Hpush. apply newest_length. }
      { done. }
      repeat split; [done|done| |done].
      rewrite Er, Hpush, newest_app_newest. by rewrite <- app_assoc.
    + pose proof (pushGapCorridor_newest player point) as Hpush.
      destruct (IH (pushGapCorridor player point)) as (Hr' & Hc' & Er & Ec).
      { done. }
      { rewrite Hpush. apply newest_length. }
      repeat split; [done|done|done|].
      rewrite Ec, Hpush, newest_app_newest. by rewrite <- app_assoc.
Qed.

Lemma buffers_bounded_fifo_witness :
  let p0 := mkPlayerState "Player 1" "#66e3ff" 0 (mkVector2D 0 0) [] [] true 0
              (mkGapState false 2 0) None in
  let ops := (fun n : nat => PushRecent (mkVector2D (inject_Z (Z.of_nat n)) 0))
               <$> seq 0 12 in
  recentPositions (foldl applyBufferOp p0 ops) =
    (fun n : nat => mkVector2D (inject_Z (Z.of_nat n)) 0) <$> seq 2 10.
Proof.
  intros p0 ops.
  transitivity (newest 10 (recentPositions p0 ++ recentPushed ops));
    [|reflexivity].
  apply (buffers_bounded_fifo p0 ops); simpl; lia.
Defined.

(** ** Gap scheduler *)

Lemma unitDraws_tail (rng : Rng) : unitDraws rng -> unitDraws (fun n => rng (S n)).
Proof. intros H n. apply H. Qed.

Lemma phase_interval_positive (b : bool) : (0 < phaseMin b)%Q /\ (phaseMin b < phaseMax b)%Q.
Proof. destruct b; split; reflexivity. Qed.

Lemma draw_in_interval (lo hi u : Q) :
  (lo < hi)%Q -> (0 <= u < 1)%Q -> (lo <= lo + u * (hi - lo) < hi)%Q.
Proof. intros Hlt [H0 H1]. split; nra. Qed.

(** A call that does not exhaust the running timer keeps the state. *)
Lemma updateGap_stay (g : GapState) (dt : Q) (rng : Rng) :
  Qle_bool (currentTimer g - dt) 0 = false ->
  let '(g', rng') := updateGap g dt rng in
  isActive g' = isActive g /\ currentTimer g' = (currentTimer g - dt)%Q /\
  rng' = rng.
Proof.
  unfold updateGap, currentTimer. simpl.
  destruct (isActive g); intros ->; simpl; done.
Qed.

(** A call that exhausts it flips the state and draws the next timer. *)
Lemma updateGap_flip (g : GapState) (dt : Q) (rng : Rng) :
  Qle_bool (currentTimer g - dt) 0 = true ->
  let '(g', rng') := updateGap g dt rng in
  isActive g' = negb (isActive g) /\
  currentTimer g' =
    (phaseMin (isActive g') + rng O * (phaseMax (isActive g') - phaseMin (isActive g')))%Q /\
  rng' = (fun n => rng (S n)).
Proof.
  unfold updateGap, currentTimer. simpl.
  destruct (isActive g); intros ->; simpl; done.
Qed.

Lemma gapCalls_follow_countdown (deltas : list Q) :
  forall (g : GapState) (rng : Rng),
  unitDraws rng -> Forall (fun dt => (0 <= dt)%Q) deltas ->
  (0 < currentTimer g <= phaseMax (isActive g))%Q ->
  length (gapCalls deltas g rng) = length deltas /\
  chained g (gapCalls deltas g rng) /\
  Forall callFollowsCountdown (gapCalls deltas g rng).
Proof.
  induction deltas as [|dt rest IH]; intros g rng Hrng Hdts Hinv; simpl;
    [by repeat split|].
  apply Forall_cons in Hdts as [Hdt Hrest].
  destruct (Qle_bool (currentTimer g - dt) 0) eqn:Hhit.
  - pose proof (updateGap_flip g dt rng Hhit) as Hflip.
    destruct (updateGap g dt rng) as [g' rng'].
    destruct Hflip as (Hact & Hnew & ->).
    apply Qle_bool_iff in Hhit.
    destruct (phase_interval_positive (isActive g')) as [Hmin Hlt].
    pose proof (draw_in_interval _ _ (rng O) Hlt (Hrng O)) as Hd.
    rewrite <- Hnew in Hd.
    assert (Hinv' : (0 < currentTimer g' <= phaseMax (isActive g'))%Q)
      by (split; lra).
    destruct (IH g' (fun n => rng (S n))) as (Hlen & Hchain & Hall);
      [by apply unitDraws_tail|done|done|].
    simpl. split; [by rewrite Hlen|]. split; [done|].
    apply Forall_cons. split; [|done].
    unfold callFollowsCountdown, withinPhaseInterval. simpl.
    split; [done|]. split; [intros _; split; [done|split; lra]|].
    split; [intros Hlt'; lra|done].
  - pose proof (updateGap_stay g dt rng Hhit) as Hstay.
    destruct (updateGap g dt rng) as [g' rng'].
    destruct Hstay as (Hact & Hnew & ->).
    assert (Hgt : ~ (currentTimer g - dt <= 0)%Q).
    { intros Hle. apply Qle_bool_iff in Hle. congruence. }
    assert (Hinv' : (0 < currentTimer g' <= phaseMax (isActive g'))%Q)
      by (rewrite Hnew, Hact; split; lra).
    destruct (IH g' rng) as (Hlen & Hchain & Hall); [done|done|done|].
    simpl. split; [by rewrite Hlen|]. split; [done|].
    apply Forall_cons. split; [|done].
    unfold callFollowsCountdown. simpl.
    split; [done|]. split; [intros Hle; lra|].
    split; [intros _; by split|done].
Qed.

(** C5 (amended): from [initGapState], for draws in [0, 1) and non-negative
    delta times, every [updateGap] call follows the countdown the code keeps.
    The run starts solid with a countdown drawn from
    [minInterval, maxInterval].  Each call starts from the state the previous
    one left.  Between calls the running countdown is positive and at most
    the maximum configured for the state.  A call flips the state (solid to
    gap, gap to solid) exactly when its delta time is at least the running
    countdown, and then draws the new countdown from [minDuration,
    maxDuration], resp. [minInterval, maxInterval]; otherwise it keeps the
    state and takes its delta time off the countdown.  So no phase is
    skipped and none outlasts its countdown; the delta time accumulated over
    a phase is not confined to the interval, since the call that ends it may
    carry any delta time. *)
Theorem gap_calls_follow_countdown (deltas : list Q) (rng : Rng) :
  unitDraws rng -> Forall (fun dt => (0 <= dt)%Q) deltas ->
  let start := fst (initGapState rng) in
  isActive start = false /\ withinPhaseInterval start /\
  length (gapTrace deltas rng) = length deltas /\
  chained start (gapTrace deltas rng) /\
  Forall callFollowsCountdown (gapTrace deltas rng).
Proof.
  intros Hrng Hdts. unfold gapTrace, initGapState, randomInRange, bind, ret,
    Math_random. cbn [fst].
  pose proof (draw_in_interval CONFIG.GAPS.minIntervalSeconds
                CONFIG.GAPS.maxIntervalSeconds (rng O) eq_refl (Hrng O)) as Hd.
  assert (0 < CONFIG.GAPS.minIntervalSeconds)%Q by reflexivity.
  split; [done|]. split.
  { unfold withinPhaseInterval, currentTimer. simpl. split; lra. }
  apply (gapCalls_follow_countdown deltas (mkGapState false _ 0));
    [by apply unitDraws_tail|done|].
  unfold currentTimer. simpl. split; lra.
Qed.

Lemma gap_calls_follow_countdown_witness :
  isActive <$> (callAfter <$>
    gapTrace [1; 1; 1 # 2; 1 # 8; 1 # 8; 1 # 8]%Q (fun _ => (1 # 2)%Q))
  = [false; false; true; true; true; false] /\
  Forall callFollowsCountdown
    (gapTrace [1; 1; 1 # 2; 1 # 8; 1 # 8; 1 # 8]%Q (fun _ => (1 # 2)%Q)).
Proof.
  split; [reflexivity|].
  apply (gap_calls_follow_countdown
           [1; 1; 1 # 2; 1 # 8; 1 # 8; 1 # 8]%Q (fun _ => (1 # 2)%Q)).
  - intros n. split; discriminate || reflexivity.
  - repeat constructor; discriminate.
Defined.

(** C5 as stated fails: after a stalled frame of 5 s the solid phase and the
    gap phase that follows have each accumulated 5 s, beyond 3.0 s and
    0.35 s; and the time accumulated before the ending call, 0 s, is below
    either minimum. *)
Lemma gap_phase_outside_interval :
  let log := gapRun [5; 5]%Q (fun _ => 0%Q) in
  unitDraws (fun _ => 0%Q) /\ Forall (fun dt => (0 <= dt)%Q) [5; 5]%Q /\
  (phaseIsGap <$> log) = [false; true] /\
  Forall (fun ph =>
    ~ phaseWithinInterval ph /\
    ~ (phaseMin (phaseIsGap ph) <= phaseElapsed ph - phaseLastDelta ph)%Q) log.
Proof.
  split; [|split; [|split]].
  - intros n. split; discriminate || reflexivity.
  - repeat constructor; discriminate.
  - reflexivity.
  - vm_compute gapRun. repeat constructor; unfold phaseWithinInterval; simpl.
    + intros [_ H]. by vm_compute in H.
    + intros H. by vm_compute in H.
    + intros [_ H]. by vm_compute in H.
    + intros H. by vm_compute in H.
Qed.

(** ** The border *)

Lemma Qlt_bool_iff (a b : Q) : Qlt_bool a b = true <-> (a < b)%Q.
Proof.
  unfold Qlt_bool. rewrite negb_true_iff, <- not_true_iff_false, Qle_bool_iff.
  split; [apply Qnot_le_lt|apply Qlt_not_le].
Qed.

Lemma hitsBorder_false (px py width height radius : Q) :
  hitsBorder px py width height radius = false <->
  insideSafeRectangle px py width height radius.
Proof.
  unfold hitsBorder, insideSafeRectangle. cbv zeta.
  fold (safeMin radius) (safeMax width radius) (safeMax height radius).
  rewrite !orb_false_iff.
  rewrite <- !not_true_iff_false, !Qlt_bool_iff.
  split.
  - intros [[[H1 H2] H3] H4]. repeat split; by apply Qnot_lt_le.
  - intros [[H1 H2] [H3 H4]]. repeat split; by apply Qle_not_lt.
Qed.

Lemma hitsBorder_beyond (px py width height radius : Q) :
  oneUnitBeyond px py width height radius ->
  hitsBorder px py width height radius = true.
Proof.
  intros Hout. apply not_false_iff_true. intros Hin.
  apply hitsBorder_false in Hin as [[H1 H2] [H3 H4]].
  destruct Hout as [H|[H|[H|H]]]; rewrite H in *; lra.
Qed.

(** ** One player's block of a tick *)

Section Blocks.

Variables (Math_cos Math_sin : Q -> Q) (Math_PI : Q).

Local Abbreviation movePlayer := (movePlayer Math_cos Math_sin).
Local Abbreviation candidate := (candidate Math_cos Math_sin).
Local Abbreviation step := (step Math_cos Math_sin Math_PI).
Local Abbreviation readyOne := (readyOne Math_PI).
Local Abbreviation readyTwo := (readyTwo Math_PI).
Local Abbreviation afterOne := (afterOne Math_cos Math_sin Math_PI).
Local Abbreviation afterTwo := (afterTwo Math_cos Math_sin Math_PI).
Local Abbreviation rotate := (rotate Math_PI).

(** The three outcomes of the block: death at the border, death on the
    trail, or the move. *)
Lemma movePlayer_outcome (self other : PlayerState) (mask : TrailMask)
    (w h : Z) (dt : Q) :
  let cand := candidate self dt in
  let res := movePlayer self other mask w h dt in
  if hitsBorder (x cand) (y cand) (inject_Z w) (inject_Z h) CONFIG.DOT.radiusPixels
  then res = (set_isAlive self false, mask)
  else if collidesWithTrailExcludingPoints mask (roundedPosition cand)
            CONFIG.DOT.radiusPixels (ignorePoints self other) ignoreMargin
  then res = (set_isAlive self false, mask)
  else isAlive (fst res) = isAlive self /\
       positionPixels (fst res) = cand /\
       scoreSeconds (fst res) = (scoreSeconds self + dt)%Q /\
       gap (fst res) = gap self /\
       if isActive (gap self)
       then fst res = set_scoreSeconds
                        (pushGapCorridor (set_positionPixels self cand)
                           (roundedPosition cand))
                        (scoreSeconds self + dt)%Q /\
            snd res = mask
       else fst res = set_scoreSeconds
                        (pushRecent (set_positionPixels self cand)
                           (roundedPosition cand))
                        (scoreSeconds self + dt)%Q /\
            snd res = markVisitedCircle mask (x (roundedPosition cand))
                        (y (roundedPosition cand)) CONFIG.DOT.radiusPixels.
Proof.
  intros cand res. subst cand res. unfold movePlayer, candidate, ignoreMargin.
  cbv zeta. cbn [x y].
  destruct (hitsBorder _ _ _ _ _); [done|].
  destruct (collidesWithTrailExcludingPoints _ _ _ _ _); [done|].
  cbn [gap set_positionPixels].
  destruct (isActive (gap self)); cbn; done.
Qed.

(** The border check of the block, at and beyond the safe rectangle. *)
Lemma movePlayer_border (self other : PlayerState) (mask : TrailMask)
    (w h : Z) (dt : Q) :
  let cand := candidate self dt in
  let res := movePlayer self other mask w h dt in
  (insideSafeRectangle (x cand) (y cand) (inject_Z w) (inject_Z h)
     CONFIG.DOT.radiusPixels ->
   isAlive self = true ->
   isAlive (fst res) =
     negb (collidesWithTrailExcludingPoints mask (roundedPosition cand)
             CONFIG.DOT.radiusPixels (ignorePoints self other) ignoreMargin) /\
   (isAlive (fst res) = true -> positionPixels (fst res) = cand)) /\
  (oneUnitBeyond (x cand) (y cand) (inject_Z w) (inject_Z h)
     CONFIG.DOT.radiusPixels ->
   isAlive (fst res) = false /\
   positionPixels (fst res) = positionPixels self /\
   snd res = mask).
Proof.
  intros cand res.
  pose proof (movePlayer_outcome self other mask w h dt) as Hout.
  cbv zeta in Hout. fold cand res in Hout. split.
  - intros Hin%hitsBorder_false Halive. rewrite Hin in Hout.
    destruct (collidesWithTrailExcludingPoints _ _ _ _ _).
    + rewrite Hout. simpl. split; [done|discriminate].
    + destruct Hout as (Ha & Hp & _). rewrite Ha. done.
  - intros Hbeyond%hitsBorder_beyond. rewrite Hbeyond in Hout.
    rewrite Hout. done.
Qed.

(** *** What rotation and the gap clock leave alone *)

Lemma rotate_fields (keys : list string) (l r : string) (dt : Q)
    (p : PlayerState) :
  let p' := rotate keys l r dt p in
  isAlive p' = isAlive p /\ scoreSeconds p' = scoreSeconds p /\
  positionPixels p' = positionPixels p /\ gap p' = gap p /\
  recentPositions p' = recentPositions p /\ gapCorridor p' = gapCorridor p.
Proof.
  unfold rotate. repeat case_bool_decide; done.
Qed.

Lemma tickGap_fields (p : PlayerState) (dt : Q) (rng : Rng) :
  let p' := fst (tickGap p dt rng) in
  isAlive p' = isAlive p /\ scoreSeconds p' = scoreSeconds p /\
  positionPixels p' = positionPixels p /\ angleRadians p' = angleRadians p /\
  recentPositions p' = recentPositions p /\ gapCorridor p' = gapCorridor p.
Proof.
  unfold tickGap, bind, ret. destruct (isAlive p) eqn:Ha; [|by cbn].
  destruct (updateGap (gap p) dt rng). simpl. done.
Qed.

Lemma readyOne_fields (nowMs : Q) (st : RoundState) (rng : Rng) :
  let p' := fst (readyOne nowMs st rng) in
  isAlive p' = isAlive (playerOne st) /\
  scoreSeconds p' = scoreSeconds (playerOne st) /\
  positionPixels p' = positionPixels (playerOne st) /\
  recentPositions p' = recentPositions (playerOne st) /\
  gapCorridor p' = gapCorridor (playerOne st).
Proof.
  unfold readyOne.
  destruct (tickGap_fields
              (rotate (pressedKeys st) CONFIG.INPUT.playerOneTurnLeftKey
                 CONFIG.INPUT.playerOneTurnRightKey (tickDelta nowMs st)
                 (playerOne st)) (tickDelta nowMs st) rng)
    as (-> & -> & -> & _ & -> & ->).
  destruct (rotate_fields (pressedKeys st) CONFIG.INPUT.playerOneTurnLeftKey
              CONFIG.INPUT.playerOneTurnRightKey (tickDelta nowMs st)
              (playerOne st)) as (-> & -> & -> & _ & -> & ->).
  done.
Qed.

Lemma readyTwo_fields (nowMs : Q) (st : RoundState) (rng : Rng) :
  let p' := fst (readyTwo nowMs st rng) in
  isAlive p' = isAlive (playerTwo st) /\
  scoreSeconds p' = scoreSeconds (playerTwo st) /\
  positionPixels p' = positionPixels (playerTwo st) /\
  recentPositions p' = recentPositions (playerTwo st) /\
  gapCorridor p' = gapCorridor (playerTwo st).
Proof.
  unfold readyTwo.
  destruct (tickGap_fields
              (rotate (pressedKeys st) CONFIG.INPUT.playerTwoTurnLeftKey
                 CONFIG.INPUT.playerTwoTurnRightKey (tickDelta nowMs st)
                 (playerTwo st)) (tickDelta nowMs st)
              (snd (readyOne nowMs st rng)))
    as (-> & -> & -> & _ & -> & ->).
  destruct (rotate_fields (pressedKeys st) CONFIG.INPUT.playerTwoTurnLeftKey
              CONFIG.INPUT.playerTwoTurnRightKey (tickDelta nowMs st)
              (playerTwo st)) as (-> & -> & -> & _ & -> & ->).
  done.
Qed.

(** *** The tick in terms of its blocks *)

Lemma step_running (nowMs : Q) (st : RoundState) (rng : Rng) :
  running st ->
  let st' := fst (step nowMs st rng) in
  playerOne st' = drawHeadWithGap (fst (afterOne nowMs st rng)) /\
  playerTwo st' = drawHeadWithGap (fst (afterTwo nowMs st rng)) /\
  trailMask st' = snd (afterTwo nowMs st rng) /\
  hasRoundEnded st' =
    negb (isAlive (fst (afterOne nowMs st rng))) &&
    negb (isAlive (fst (afterTwo nowMs st rng))).
Proof.
  intros [Hmov Hend]. unfold step, afterTwo, afterOne, readyTwo, readyOne,
    tickDelta, bind, ret.
  rewrite Hmov, Hend. cbn [andb negb].
  destruct (tickGap _ _ rng) as [p1g rng1]. cbn [fst snd].
  destruct (tickGap _ _ rng1) as [p2g rng2]. cbn [fst snd].
  repeat split. by destruct (_ && _).
Qed.

Lemma step_idle (nowMs : Q) (st : RoundState) (rng : Rng) :
  ~ running st ->
  let st' := fst (step nowMs st rng) in
  playerOne st' =
    drawHeadWithGap (rotate (pressedKeys st) CONFIG.INPUT.playerOneTurnLeftKey
       CONFIG.INPUT.playerOneTurnRightKey (tickDelta nowMs st) (playerOne st)) /\
  playerTwo st' =
    drawHeadWithGap (rotate (pressedKeys st) CONFIG.INPUT.playerTwoTurnLeftKey
       CONFIG.INPUT.playerTwoTurnRightKey (tickDelta nowMs st) (playerTwo st)) /\
  trailMask st' = trailMask st.
Proof.
  intros Hnot. unfold step, running in *.
  destruct (isMoving st), (hasRoundEnded st); simpl; try done.
  by destruct Hnot.
Qed.

End Blocks.

(** ** The tick *)

Section Tick.

Variables (Math_cos Math_sin : Q -> Q) (Math_PI : Q).

Local Abbreviation movePlayer := (movePlayer Math_cos Math_sin).
Local Abbreviation candidate := (candidate Math_cos Math_sin).
Local Abbreviation step := (step Math_cos Math_sin Math_PI).
Local Abbreviation readyOne := (readyOne Math_PI).
Local Abbreviation readyTwo := (readyTwo Math_PI).
Local Abbreviation afterOne := (afterOne Math_cos Math_sin Math_PI).
Local Abbreviation afterTwo := (afterTwo Math_cos Math_sin Math_PI).

(** Score and position through one block, alive or not. *)
Lemma block_score (self other : PlayerState) (mask : TrailMask) (w h : Z)
    (dt : Q) :
  let res := if isAlive self then movePlayer self other mask w h dt
             else (self, mask) in
  ((0 <= dt)%Q -> (scoreSeconds self <= scoreSeconds (fst res))%Q) /\
  (isAlive self = false -> fst res = self).
Proof.
  destruct (isAlive self) eqn:Halive; simpl.
  - split; [|discriminate]. intros Hdt.
    pose proof (movePlayer_outcome Math_cos Math_sin self other mask w h dt)
      as Hout. cbv zeta in Hout.
    destruct (hitsBorder _ _ _ _ _); [rewrite Hout; simpl; lra|].
    destruct (collidesWithTrailExcludingPoints _ _ _ _ _);
      [rewrite Hout; simpl; lra|].
    destruct Hout as (_ & _ & -> & _). lra.
  - split; [lra|done].
Qed.

(** C9: for a tick with non-negative delta time no player's
    [scoreSeconds] decreases; and a tick executed while a player's
    [isAlive] flag is false leaves that player's [scoreSeconds] and
    [positionPixels] unchanged. *)
Theorem score_monotone_frozen_when_dead
    (nowMs : Q) (st : RoundState) (rng : Rng) :
  (0 <= tickDelta nowMs st)%Q ->
  let st' := fst (step nowMs st rng) in
  (scoreSeconds (playerOne st) <= scoreSeconds (playerOne st'))%Q /\
  (scoreSeconds (playerTwo st) <= scoreSeconds (playerTwo st'))%Q /\
  (isAlive (playerOne st) = false ->
     scoreSeconds (playerOne st') = scoreSeconds (playerOne st) /\
     positionPixels (playerOne st') = positionPixels (playerOne st)) /\
  (isAlive (playerTwo st) = false ->
     scoreSeconds (playerTwo st') = scoreSeconds (playerTwo st) /\
     positionPixels (playerTwo st') = positionPixels (playerTwo st)).
Proof.
  intros Hdt st'.
  destruct (readyOne_fields Math_PI nowMs st rng) as (Ha1 & Hs1 & Hp1 & _).
  destruct (readyTwo_fields Math_PI nowMs st rng) as (Ha2 & Hs2 & Hp2 & _).
  assert (Hcase : running st \/ ~ running st).
  { unfold running. destruct (isMoving st), (hasRoundEnded st); intuition congruence. }
  destruct Hcase as [Hrun|Hidle].
  - destruct (step_running Math_cos Math_sin Math_PI nowMs st rng Hrun)
      as (E1 & E2 & _). fold st' in E1, E2. rewrite E1, E2.
    unfold afterTwo, afterOne, resolvePlayerOne, resolvePlayerTwo.
    cbn [drawHeadWithGap set_lastRenderedPosition scoreSeconds positionPixels].
    set (one := fst (readyOne nowMs st rng)) in *.
    set (two := fst (readyTwo nowMs st rng)) in *.
    pose proof (block_score one two (trailMask st) (clientWidth st)
                  (clientHeight st) (tickDelta nowMs st)) as [M1 F1].
    set (r1 := if isAlive one then _ else _) in *.
    pose proof (block_score two (fst r1) (snd r1) (clientWidth st)
                  (clientHeight st) (tickDelta nowMs st)) as [M2 F2].
    rewrite <- Hs1, <- Hs2, <- Hp1, <- Hp2, <- Ha1, <- Ha2.
    split; [auto|]. split; [auto|].
    split; intros Hd; [rewrite (F1 Hd)|rewrite (F2 Hd)]; done.
  - destruct (step_idle Math_cos Math_sin Math_PI nowMs st rng Hidle)
      as (E1 & E2 & _). fold st' in E1, E2. rewrite E1, E2.
    cbn [drawHeadWithGap set_lastRenderedPosition scoreSeconds positionPixels].
    destruct (rotate_fields Math_PI (pressedKeys st)
                CONFIG.INPUT.playerOneTurnLeftKey
                CONFIG.INPUT.playerOneTurnRightKey (tickDelta nowMs st)
                (playerOne st)) as (_ & -> & -> & _).
    destruct (rotate_fields Math_PI (pressedKeys st)
                CONFIG.INPUT.playerTwoTurnLeftKey
                CONFIG.INPUT.playerTwoTurnRightKey (tickDelta nowMs st)
                (playerTwo st)) as (_ & -> & -> & _).
    repeat split; lra.
Qed.

(** C4 (amended): in a running tick, for a player that is alive: when the
    candidate position lies on the boundary of the safe rectangle,
    [hitsBorder] is false, so the border does not kill the player; the
    player is alive after the tick exactly when the trail test at the
    rounded candidate finds no collision, and then stands at the
    candidate.  When the candidate lies one unit beyond a side of the
    rectangle, [hitsBorder] is true and the player is dead after the tick,
    at its old position.  Player two's trail test runs on the mask and
    against the player one that player one's block left. *)
Theorem border_boundary_then_trail_test
    (nowMs : Q) (st : RoundState) (rng : Rng) :
  running st ->
  let dt := tickDelta nowMs st in
  let w := inject_Z (clientWidth st) in
  let h := inject_Z (clientHeight st) in
  let radius := CONFIG.DOT.radiusPixels in
  let st' := fst (step nowMs st rng) in
  let one := fst (readyOne nowMs st rng) in
  let two := fst (readyTwo nowMs st rng) in
  let c1 := candidate one dt in
  let c2 := candidate two dt in
  (isAlive (playerOne st) = true ->
     (onSafeBoundary (x c1) (y c1) w h radius ->
        hitsBorder (x c1) (y c1) w h radius = false /\
        isAlive (playerOne st') =
          negb (collidesWithTrailExcludingPoints (trailMask st)
                  (roundedPosition c1) radius (ignorePoints one two)
                  ignoreMargin) /\
        (isAlive (playerOne st') = true -> positionPixels (playerOne st') = c1)) /\
     (oneUnitBeyond (x c1) (y c1) w h radius ->
        hitsBorder (x c1) (y c1) w h radius = true /\
        isAlive (playerOne st') = false /\
        positionPixels (playerOne st') = positionPixels (playerOne st))) /\
  (isAlive (playerTwo st) = true ->
     (onSafeBoundary (x c2) (y c2) w h radius ->
        hitsBorder (x c2) (y c2) w h radius = false /\
        isAlive (playerTwo st') =
          negb (collidesWithTrailExcludingPoints (snd (afterOne nowMs st rng))
                  (roundedPosition c2) radius
                  (ignorePoints two (fst (afterOne nowMs st rng)))
                  ignoreMargin) /\
        (isAlive (playerTwo st') = true -> positionPixels (playerTwo st') = c2)) /\
     (oneUnitBeyond (x c2) (y c2) w h radius ->
        hitsBorder (x c2) (y c2) w h radius = true /\
        isAlive (playerTwo st') = false /\
        positionPixels (playerTwo st') = positionPixels (playerTwo st))).
Proof.
  intros Hrun dt w h radius st' one two c1 c2.
  destruct (readyOne_fields Math_PI nowMs st rng) as (Ha1 & _ & Hp1 & _).
  destruct (readyTwo_fields Math_PI nowMs st rng) as (Ha2 & _ & Hp2 & _).
  fold one in Ha1, Hp1. fold two in Ha2, Hp2.
  destruct (step_running Math_cos Math_sin Math_PI nowMs st rng Hrun)
    as (E1 & E2 & _). fold st' in E1, E2. rewrite E1, E2.
  cbn [drawHeadWithGap set_lastRenderedPosition isAlive positionPixels].
  split; intros Halive.
  - unfold afterOne, resolvePlayerOne. fold one two dt.
    rewrite Ha1, Halive, <- Hp1.
    destruct (movePlayer_border Math_cos Math_sin one two (trailMask st)
                (clientWidth st) (clientHeight st) dt) as [Hon Hoff].
    split.
    + intros [Hin _]. split; [by apply hitsBorder_false|].
      apply Hon; [done|]. by rewrite Ha1.
    + intros Hb. split; [by apply hitsBorder_beyond|].
      destruct (Hoff Hb) as (? & ? & _). done.
  - unfold afterTwo, resolvePlayerTwo. fold one two dt.
    rewrite Ha2, Halive, <- Hp2.
    destruct (movePlayer_border Math_cos Math_sin two
                (fst (afterOne nowMs st rng)) (snd (afterOne nowMs st rng))
                (clientWidth st) (clientHeight st) dt) as [Hon Hoff].
    split.
    + intros [Hin _]. split; [by apply hitsBorder_false|].
      apply Hon; [done|]. by rewrite Ha2.
    + intros Hb. split; [by apply hitsBorder_beyond|].
      destruct (Hoff Hb) as (? & ? & _). done.
Qed.

Lemma newest_last {A} (n : nat) (l : list A) (a : A) :
  (0 < n)%nat -> a ∈ newest n (l ++ [a]).
Proof.
  intros Hn. unfold newest. rewrite length_app. simpl length.
  rewrite drop_app_le by lia. apply elem_of_app. right.
  by apply list_elem_of_singleton.
Qed.

(** C6: in a running tick player one's block runs first, on the mask and
    against the player two of before any movement; player two's block
    runs on the mask and against the player one that block left.  So
    player two's trail test excludes its own recent positions, its own gap
    corridor and player one's gap corridor as it stands after player
    one's block; and when player one has moved inside a gap in this tick,
    the point it pushed is in that corridor and the mask is untouched. *)
Theorem player_two_sees_player_one_corridor
    (nowMs : Q) (st : RoundState) (rng : Rng) :
  running st ->
  let dt := tickDelta nowMs st in
  let w := clientWidth st in
  let h := clientHeight st in
  let radius := CONFIG.DOT.radiusPixels in
  let st' := fst (step nowMs st rng) in
  let one := fst (readyOne nowMs st rng) in
  let two := fst (readyTwo nowMs st rng) in
  let one' := fst (resolvePlayerOne Math_cos Math_sin one two (trailMask st) w h dt) in
  let mask1 := snd (resolvePlayerOne Math_cos Math_sin one two (trailMask st) w h dt) in
  let c1 := candidate one dt in
  let c2 := candidate two dt in
  playerOne st' = drawHeadWithGap one' /\
  playerTwo st' =
    drawHeadWithGap (fst (resolvePlayerTwo Math_cos Math_sin one' two mask1 w h dt)) /\
  (isAlive (playerTwo st) = true ->
   hitsBorder (x c2) (y c2) (inject_Z w) (inject_Z h) radius = false ->
   isAlive (playerTwo st') =
     negb (collidesWithTrailExcludingPoints mask1 (roundedPosition c2) radius
             (recentPositions two ++ gapCorridor two ++ gapCorridor one')
             ignoreMargin)) /\
  (isAlive (playerOne st) = true -> isActive (gap one) = true ->
   isAlive (playerOne st') = true ->
   gapCorridor one' =
     newest CONFIG.GAPS.corridorMaxPoints
       (gapCorridor (playerOne st) ++ [roundedPosition c1]) /\
   roundedPosition c1 ∈ gapCorridor one' /\
   mask1 = trailMask st).
Proof.
  intros Hrun dt w h radius st' one two one' mask1 c1 c2.
  destruct (readyOne_fields Math_PI nowMs st rng) as (Ha1 & _ & _ & _ & Hc1).
  destruct (readyTwo_fields Math_PI nowMs st rng) as (Ha2 & _).
  fold one in Ha1, Hc1. fold two in Ha2.
  destruct (step_running Math_cos Math_sin Math_PI nowMs st rng Hrun)
    as (E1 & E2 & _). fold st' in E1, E2.
  unfold afterTwo, afterOne in E1, E2. fold one two dt w h in E1, E2.
  fold one' mask1 in E1, E2.
  split; [done|]. split; [done|]. split.
  - intros Halive Hin. rewrite E2.
    cbn [drawHeadWithGap set_lastRenderedPosition isAlive].
    unfold resolvePlayerTwo. rewrite Ha2, Halive.
    apply hitsBorder_false in Hin.
    destruct (movePlayer_border Math_cos Math_sin two one' mask1 w h dt)
      as [Hon _].
    apply Hon; [done|]. by rewrite Ha2.
  - intros Halive Hgap Hstill. rewrite E1 in Hstill.
    cbn [drawHeadWithGap set_lastRenderedPosition isAlive] in Hstill.
    subst one' mask1. unfold resolvePlayerOne in *.
    rewrite Ha1, Halive in *.
    pose proof (movePlayer_outcome Math_cos Math_sin one two (trailMask st)
                  w h dt) as Hout. cbv zeta in Hout. fold c1 in Hout.
    destruct (hitsBorder _ _ _ _ _);
      [rewrite Hout in Hstill; discriminate|].
    destruct (collidesWithTrailExcludingPoints _ _ _ _ _);
      [rewrite Hout in Hstill; discriminate|].
    destruct Hout as (_ & _ & _ & _ & Hstamp). rewrite Hgap in Hstamp.
    destruct Hstamp as [-> ->].
    cbn [set_scoreSeconds gapCorridor].
    rewrite pushGapCorridor_newest. cbn [set_positionPixels gapCorridor].
    rewrite Hc1. split; [done|]. split; [|done].
    apply newest_last. unfold CONFIG.GAPS.corridorMaxPoints. lia.
Qed.

End Tick.

(** A running tick with a crashed player one beside a moving player two. *)
Lemma score_monotone_frozen_when_dead_witness :
  scoreSeconds (playerOne (fst (step cosAtZero sinAtZero piApprox (25 # 2)
                                  oneDeadRound halves))) = 7%Q /\
  positionPixels (playerOne (fst (step cosAtZero sinAtZero piApprox (25 # 2)
                                    oneDeadRound halves))) = mkVector2D 30 30 /\
  (3 <= scoreSeconds (playerTwo (fst (step cosAtZero sinAtZero piApprox (25 # 2)
                                        oneDeadRound halves))))%Q /\
  positionPixels (playerTwo (fst (step cosAtZero sinAtZero piApprox (25 # 2)
                                    oneDeadRound halves))) <> mkVector2D 52 51.
Proof.
  destruct (score_monotone_frozen_when_dead cosAtZero sinAtZero piApprox
              (25 # 2) oneDeadRound halves) as (_ & Htwo & Hdead & _).
  - discriminate.
  - destruct (Hdead eq_refl) as [Hs Hp].
    split; [exact Hs|]. split; [exact Hp|]. split; [exact Htwo|].
    vm_compute. discriminate.
Defined.

(** On the right side of the safe rectangle of a 100 x 100 surface
    (x = 90) with no trail around, player one is alive after the tick. *)
Lemma border_boundary_then_trail_test_witness :
  isAlive (playerOne (fst (step cosAtZero sinAtZero piApprox (25 # 2)
                             (borderRound false) halves))) = true.
Proof.
  assert (Hrun : running (borderRound false)) by (split; reflexivity).
  destruct (border_boundary_then_trail_test cosAtZero sinAtZero piApprox
              (25 # 2) (borderRound false) halves Hrun) as [Hone _].
  destruct (Hone eq_refl) as [Hon _].
  destruct Hon as (_ & Halive & _).
  - split; [|right; left]; vm_compute; intuition discriminate.
  - rewrite Halive. vm_compute. reflexivity.
Defined.

(** C4 as stated fails when trail lies at the boundary: the candidate
    (90, 50) is on the right side of the safe rectangle, the border check
    passes, and player one dies on the trail the other player left there
    (the pixel (92, 50) is more than 2.75 away from player one's recent
    position). *)
Lemma boundary_candidate_dies_on_trail :
  let st := borderRound true in
  let one := fst (readyOne piApprox (25 # 2) st halves) in
  let c1 := candidate cosAtZero sinAtZero one (tickDelta (25 # 2) st) in
  running st /\ isAlive (playerOne st) = true /\
  onSafeBoundary (x c1) (y c1) (inject_Z (clientWidth st))
    (inject_Z (clientHeight st)) CONFIG.DOT.radiusPixels /\
  isAlive (playerOne (fst (step cosAtZero sinAtZero piApprox (25 # 2) st halves)))
    = false.
Proof.
  split; [by split|]. split; [done|]. split.
  - split; [|right; left]; vm_compute; intuition discriminate.
  - vm_compute. reflexivity.
Qed.

(** Player two survives the tick thanks to the point (57, 52) player one
    pushed to its gap corridor in the same tick: against player one's
    corridor of before the tick the same test reports a collision, on the
    old trail pixel (55, 51). *)
Lemma player_two_sees_player_one_corridor_witness :
  let st := crossingRound in
  let two := fst (readyTwo piApprox (25 # 2) st halves) in
  let c2 := candidate cosAtZero sinAtZero two (tickDelta (25 # 2) st) in
  isAlive (playerTwo (fst (step cosAtZero sinAtZero piApprox (25 # 2) st halves)))
    = true /\
  collidesWithTrailExcludingPoints (trailMask st) (roundedPosition c2)
    CONFIG.DOT.radiusPixels
    (recentPositions two ++ gapCorridor two ++ gapCorridor (playerOne st))
    ignoreMargin = true.
Proof.
  intros st two c2. split; [|vm_compute; reflexivity].
  assert (Hrun : running st) by (split; reflexivity).
  destruct (player_two_sees_player_one_corridor cosAtZero sinAtZero piApprox
              (25 # 2) st halves Hrun) as (_ & _ & Htwo & _).
  rewrite Htwo; vm_compute; reflexivity.
Defined.

(** ** Reset *)

Lemma inClampedBox_same_size (m m' : TrailMask) (cx cy r : Q) (px py : Z) :
  widthPixels m' = widthPixels m -> heightPixels m' = heightPixels m ->
  inClampedBox m' cx cy r px py <-> inClampedBox m cx cy r px py.
Proof. unfold inClampedBox. by intros -> ->. Qed.

Lemma inCircle_dec (m : TrailMask) (cx cy r : Q) (px py : Z) :
  {inClampedBox m cx cy r px py /\ (distanceSquaredTo px py cx cy <= r * r)%Q} +
  {~ (inClampedBox m cx cy r px py /\ (distanceSquaredTo px py cx cy <= r * r)%Q)}.
Proof.
  destruct (decide (inClampedBox m cx cy r px py)) as [Hbox|Hbox];
    [|right; tauto].
  destruct (Qlt_le_dec (r * r) (distanceSquaredTo px py cx cy)) as [Hlt|Hle].
  - right. intros [_ Hle]. by apply Qle_not_lt in Hle.
  - by left.
Qed.

Lemma createTrailMask_wellFormed (w h : Z) (m : TrailMask) :
  0 <= w -> 0 <= h -> createTrailMask w h = Some m -> wellFormed m.
Proof.
  intros Hw Hh (Ew & Eh & Hocc)%createTrailMask_spec. unfold wellFormed.
  rewrite Ew, Eh, Hocc, length_replicate. done.
Qed.

(** The occupied pixels of a fresh mask after two stamps. *)
Lemma two_stamps_on_fresh_mask (w h : Z) (mask0 : TrailMask)
    (s1 s2 : Vector2D) (r : Q) (px py : Z) :
  0 <= w -> 0 <= h -> createTrailMask w h = Some mask0 ->
  inGrid mask0 px py ->
  let mask2 := markVisitedCircle (markVisitedCircle mask0 (x s1) (y s1) r)
                 (x s2) (y s2) r in
  occupied mask2 px py <->
  (inClampedBox mask0 (x s1) (y s1) r px py /\
   (distanceSquaredTo px py (x s1) (y s1) <= r * r)%Q) \/
  (inClampedBox mask0 (x s2) (y s2) r px py /\
   (distanceSquaredTo px py (x s2) (y s2) <= r * r)%Q).
Proof.
  intros Hw Hh Hnew Hgrid.
  set (mask1 := markVisitedCircle mask0 (x s1) (y s1) r). intros mask2.
  pose proof (createTrailMask_wellFormed w h mask0 Hw Hh Hnew) as Hwf.
  pose proof (markVisitedCircle_stamped mask0 (x s1) (y s1) r) as Hst1.
  fold mask1 in Hst1.
  assert (Hgrid1 : inGrid mask1 px py).
  { unfold inGrid.
    by rewrite (stamped_width _ _ _ Hst1), (stamped_height _ _ _ Hst1). }
  assert (Hbox : forall c, inClampedBox mask1 (x c) (y c) r px py <->
                           inClampedBox mask0 (x c) (y c) r px py).
  { intros c. apply inClampedBox_same_size; apply Hst1. }
  destruct (markVisitedCircle_cell mask0 (x s1) (y s1) r px py Hgrid)
    as [Hset1 Hframe1]. fold mask1 in Hset1, Hframe1.
  destruct (markVisitedCircle_cell mask1 (x s2) (y s2) r px py Hgrid1)
    as [Hset2 Hframe2]. fold mask2 in Hset2, Hframe2.
  pose proof (markVisitedCircle_kept mask1 (x s2) (y s2) r px py) as Hkeep2.
  fold mask2 in Hkeep2.
  assert (Hsome0 : is_Some (cellOccupancy mask0 px py))
    by by apply wellFormed_cell.
  split.
  - intros Hocc.
    destruct (inCircle_dec mask1 (x s2) (y s2) r px py) as [[H2 D2]|Hout2].
    { right. split; [by apply Hbox|done]. }
    destruct (inCircle_dec mask0 (x s1) (y s1) r px py) as [H1|Hout1];
      [by left|].
    exfalso. unfold occupied in Hocc.
    rewrite (Hframe2 Hout2), (Hframe1 Hout1) in Hocc.
    apply (createTrailMask_empty w h mask0 _ _ Hnew) in Hocc. discriminate.
  - intros [[H1 D1]|[H2 D2]].
    + apply Hkeep2, Hset1; done.
    + apply Hset2; [by apply Hbox|done|].
      destruct (inCircle_dec mask0 (x s1) (y s1) r px py) as [[H1 D1]|Hout1].
      * exists 1. by apply Hset1.
      * by rewrite (Hframe1 Hout1).
Qed.

(** C2 (amended): on a surface of non-negative size [resetRound] returns;
    the mask [createTrailMask] makes for it has every entry 0; after the
    reset both scores are 0, both players are alive, the round is neither
    moving nor ended, each player's recent buffer holds its rounded spawn
    position, and the mask of the new round is that fresh mask with the two
    spawn circles stamped on it: a pixel of the grid is occupied exactly when
    it lies within the dot radius of one of the rounded spawn positions. *)
Theorem resetRound_fresh_round (window : Window) (st : RoundState) (rng : Rng) :
  0 <= innerWidth window -> 0 <= innerHeight window ->
  exists mask0 st' rng',
    createTrailMask (innerWidth window) (innerHeight window) = Some mask0 /\
    (forall j v, readOccupancy mask0 j = Some v -> v = 0) /\
    resetRound window st rng = Some (st', rng') /\
    scoreSeconds (playerOne st') = 0%Q /\ scoreSeconds (playerTwo st') = 0%Q /\
    isAlive (playerOne st') = true /\ isAlive (playerTwo st') = true /\
    isMoving st' = false /\ hasRoundEnded st' = false /\
    let s1 := roundedPosition (positionPixels (playerOne st')) in
    let s2 := roundedPosition (positionPixels (playerTwo st')) in
    let r := CONFIG.DOT.radiusPixels in
    recentPositions (playerOne st') = [s1] /\
    recentPositions (playerTwo st') = [s2] /\
    forall px py, inGrid mask0 px py ->
      (occupied (trailMask st') px py <->
       (inClampedBox mask0 (x s1) (y s1) r px py /\
        (distanceSquaredTo px py (x s1) (y s1) <= r * r)%Q) \/
       (inClampedBox mask0 (x s2) (y s2) r px py /\
        (distanceSquaredTo px py (x s2) (y s2) <= r * r)%Q)).
Proof.
  intros Hw Hh.
  destruct (createTrailMask_total _ _ Hw Hh) as [mask0 Hnew].
  exists mask0. unfold resetRound. rewrite Hnew.
  unfold bind, ret, initGapState, randomInRange, Math_random, bind, ret.
  cbv zeta. eexists _, _.
  split; [done|]. split; [intros j v; by apply (createTrailMask_empty _ _ _ _ _ Hnew)|].
  split; [reflexivity|].
  cbn [playerOne playerTwo isMoving hasRoundEnded trailMask].
  repeat (split; [reflexivity|]).
  intros px py Hgrid.
  apply (two_stamps_on_fresh_mask (innerWidth window) (innerHeight window));
    done.
Qed.

Lemma resetRound_fresh_round_witness :
  exists st' rng',
    resetRound (mkWindow 100 100) endedRound halves = Some (st', rng') /\
    scoreSeconds (playerOne st') = 0%Q /\ isAlive (playerOne st') = true.
Proof.
  destruct (resetRound_fresh_round (mkWindow 100 100) endedRound halves)
    as (mask0 & st' & rng' & _ & _ & Hreset & Hscore & _ & Halive & _).
  - simpl; lia.
  - simpl; lia.
  - exists st', rng'. done.
Defined.

(** C2 as stated fails: after the restart of an ended round on a 100 x 100
    surface, with every draw 1/2, both players spawn at (50, 50) and the
    pixel (50, 50) of the new mask is occupied. *)
Lemma resetRound_mask_carries_spawn_stamps :
  hasRoundEnded endedRound = true /\
  match handleKeyDown (mkWindow 100 100) CONFIG.INPUT.restartKey endedRound halves with
  | Some (st', _) =>
      scoreSeconds (playerOne st') = 0%Q /\ isAlive (playerOne st') = true /\
      occupied (trailMask st') 50 50 /\
      ~ (forall j v, readOccupancy (trailMask st') j = Some v -> v = 0)
  | None => False
  end.
Proof.
  split; [reflexivity|].
  assert (Hocc : match handleKeyDown (mkWindow 100 100) CONFIG.INPUT.restartKey
                         endedRound halves with
                 | Some (st', _) =>
                     scoreSeconds (playerOne st') = 0%Q /\
                     isAlive (playerOne st') = true /\
                     occupied (trailMask st') 50 50
                 | None => False
                 end) by (vm_compute; done).
  destruct (handleKeyDown _ _ _ _) as [[st' rng']|]; [|done].
  destruct Hocc as (Hs & Ha & Ho). repeat split; try done.
  intros Hzero. specialize (Hzero _ _ Ho). discriminate.
Qed.

(** * Further properties of the code *)

(** ** Algebra of stamps and queries *)

Lemma collides_false (m : TrailMask) (c : Vector2D) (r : Q)
    (pts : list Vector2D) (mg : Q) :
  collidesWithTrailExcludingPoints m c r pts mg = false <->
  forall px py, inClampedBox m (x c) (y c) r px py ->
    pixelCollides m c r pts mg px py = false.
Proof.
  rewrite <- not_true_iff_false, collides_true. split.
  - intros Hno px py Hbox. apply not_true_iff_false. intros Hc. apply Hno. eauto.
  - intros Hall (px & py & Hbox & Hc). rewrite (Hall px py Hbox) in Hc. done.
Qed.

(** X1: on the mask [createTrailMask] returns, no query reports a
    collision, whatever the center, radius, excluded points and margin. *)
Theorem fresh_mask_never_collides (w h : Z) (mask : TrailMask) (center : Vector2D)
    (r : Q) (pts : list Vector2D) (m : Q) :
  createTrailMask w h = Some mask ->
  collidesWithTrailExcludingPoints mask center r pts m = false.
Proof.
  intros Hnew. apply not_true_iff_false. intros Hc.
  apply collides_true in Hc as (px & py & _ & Hc).
  apply pixelCollides_true in Hc as (_ & Hocc & _).
  apply (createTrailMask_empty w h mask _ _ Hnew) in Hocc. discriminate.
Qed.

Lemma fresh_mask_never_collides_witness :
  collidesWithTrailExcludingPoints (mkTrailMask 4 4 (replicate 16 0))
    (mkVector2D 2 2) 2 [] 0 = false.
Proof.
  apply (fresh_mask_never_collides 4 4). reflexivity.
Defined.

(** X2: exclusions only remove collisions.  A query that collides with more
    excluded points and a larger margin also collides with fewer points and
    a smaller margin (the ignore radius [r + m] being non-negative). *)
Theorem fewer_exclusions_keep_collision (mask : TrailMask) (center : Vector2D)
    (r : Q) (pts pts' : list Vector2D) (m m' : Q) :
  (forall p, p ∈ pts -> p ∈ pts') ->
  (0 <= r + m)%Q -> (m <= m')%Q ->
  collidesWithTrailExcludingPoints mask center r pts' m' = true ->
  collidesWithTrailExcludingPoints mask center r pts m = true.
Proof.
  intros Hsub Hrm Hmm Hc.
  apply collides_true in Hc as (px & py & Hbox & Hc).
  apply collides_true. exists px, py. split; [done|].
  apply pixelCollides_true in Hc as (Hd & Hocc & Hpts).
  apply pixelCollides_true. repeat split; [done|done|].
  intros p Hp Hle. apply (Hpts p (Hsub p Hp)).
  eapply Qle_trans; [apply Hle|]. nra.
Qed.

Lemma fewer_exclusions_keep_collision_witness :
  collidesWithTrailExcludingPoints
    (mkTrailMask 5 5 (<[12%nat := 1]> (replicate 25 0)))
    (mkVector2D 2 2) 1 [] 0 = true.
Proof.
  apply (fewer_exclusions_keep_collision _ _ _ [] [mkVector2D 4 4] 0 (1 # 2)).
  - intros p Hp. by apply elem_of_nil in Hp.
  - discriminate.
  - discriminate.
  - reflexivity.
Defined.

(** X3: stamping never removes a collision: a query that collides still
    collides after any [markVisitedCircle] on the mask. *)
Theorem stamp_keeps_collision (mask : TrailMask) (center : Vector2D) (r : Q)
    (pts : list Vector2D) (m : Q) (sx sy sr : Q) :
  collidesWithTrailExcludingPoints mask center r pts m = true ->
  collidesWithTrailExcludingPoints (markVisitedCircle mask sx sy sr)
    center r pts m = true.
Proof.
  intros Hc. pose proof (markVisitedCircle_stamped mask sx sy sr) as Hst.
  apply collides_true in Hc as (px & py & Hbox & Hc).
  apply collides_true. exists px, py. split.
  - apply (inClampedBox_same_size mask); [apply Hst|apply Hst|done].
  - apply pixelCollides_true in Hc as (Hd & Hocc & Hpts).
    apply pixelCollides_true. repeat split; [done| |done].
    by apply markVisitedCircle_kept.
Qed.

Lemma stamp_keeps_collision_witness :
  collidesWithTrailExcludingPoints
    (markVisitedCircle (mkTrailMask 5 5 (<[12%nat := 1]> (replicate 25 0))) 4 4 1)
    (mkVector2D 2 2) 1 [] 0 = true.
Proof.
  apply (stamp_keeps_collision
           (mkTrailMask 5 5 (<[12%nat := 1]> (replicate 25 0)))
           (mkVector2D 2 2) 1 [] 0 4 4 1).
  reflexivity.
Defined.

(** *** Circles that miss the grid *)

Lemma loopRange_empty (lo hi : Z) : hi < lo -> loopRange lo hi = [].
Proof. intros Hlt. unfold loopRange. apply seqZ_nil. lia. Qed.

Lemma foldl_unchanged {A B} (f : A -> B -> A) (l : list B) (a : A) :
  (forall a' b, b ∈ l -> f a' b = a') -> foldl f a l = a.
Proof.
  revert a. induction l as [|b l IH]; intros a Hf; simpl; [done|].
  rewrite Hf by left. apply IH. intros a' b' Hb'. apply Hf. by right.
Qed.

Lemma missesGrid_box_empty (m : TrailMask) (cx cy r : Q) :
  missesGrid m cx cy r ->
  Z.min (widthPixels m - 1) (Math_ceil (cx + r)) < Z.max 0 (Math_floor (cx - r)) \/
  Z.min (heightPixels m - 1) (Math_ceil (cy + r)) < Z.max 0 (Math_floor (cy - r)).
Proof.
  unfold Math_ceil, Math_floor.
  intros [H|[H|[H|H]]].
  - left. apply Qceiling_resp_le in H. change (-1)%Q with (inject_Z (-1)) in H.
    rewrite Qceiling_Z in H. lia.
  - left. apply Qfloor_resp_le in H. rewrite Qfloor_Z in H. lia.
  - right. apply Qceiling_resp_le in H. change (-1)%Q with (inject_Z (-1)) in H.
    rewrite Qceiling_Z in H. lia.
  - right. apply Qfloor_resp_le in H. rewrite Qfloor_Z in H. lia.
Qed.

(** X4: a circle that misses the grid is a no-op: when the circle ends at
    least one pixel before the left or top side ([c + r <= -1]), or begins at
    or beyond the right or bottom side ([size <= c - r]), the clamped bounding
    box is empty, so the query returns [false] and the stamp returns the mask
    as it was. *)
Theorem circle_missing_grid_is_noop (mask : TrailMask) (center : Vector2D)
    (r : Q) (pts : list Vector2D) (m : Q) :
  missesGrid mask (x center) (y center) r ->
  collidesWithTrailExcludingPoints mask center r pts m = false /\
  markVisitedCircle mask (x center) (y center) r = mask.
Proof.
  intros Hmiss%missesGrid_box_empty. split.
  - apply collides_false. intros px py [Hx Hy]. lia.
  - unfold markVisitedCircle. cbv zeta. destruct Hmiss as [Hx|Hy].
    + apply foldl_unchanged. intros a py _.
      by rewrite (loopRange_empty _ _ Hx).
    + by rewrite (loopRange_empty _ _ Hy).
Qed.

Lemma circle_missing_grid_is_noop_witness :
  markVisitedCircle (mkTrailMask 4 4 (replicate 16 0)) 6 1 2
    = mkTrailMask 4 4 (replicate 16 0) /\
  markVisitedCircle (mkTrailMask 4 4 (replicate 16 0)) (-2) 1 2
    <> mkTrailMask 4 4 (replicate 16 0).
Proof.
  split.
  - apply (circle_missing_grid_is_noop (mkTrailMask 4 4 (replicate 16 0))
             (mkVector2D 6 1) 2 [] 0).
    right; left. discriminate.
  - discriminate.
Defined.

(** *** Stamps compose *)

Lemma readOccupancy_nat (m : TrailMask) (i : nat) :
  readOccupancy m (Z.of_nat i) = occupancy m !! i.
Proof.
  unfold readOccupancy. destruct (Z.ltb_spec (Z.of_nat i) 0); [lia|].
  by rewrite Nat2Z.id.
Qed.

(** Two results of stamping the same decidable set on the same mask are the
    same mask. *)
Lemma stamped_unique (S : Z -> Prop) (m m1 m2 : TrailMask) :
  (forall j, S j \/ ~ S j) ->
  stamped S m m1 -> stamped S m m2 -> m1 = m2.
Proof.
  intros Hdec H1 H2.
  destruct m1 as [w1 h1 o1], m2 as [w2 h2 o2].
  pose proof (stamped_width _ _ _ H1) as Ew1. pose proof (stamped_width _ _ _ H2) as Ew2.
  pose proof (stamped_height _ _ _ H1) as Eh1. pose proof (stamped_height _ _ _ H2) as Eh2.
  simpl in *. subst w1 w2 h1 h2. f_equal.
  apply list_eq. intros i.
  pose proof (readOccupancy_nat (mkTrailMask (widthPixels m) (heightPixels m) o1) i) as R1.
  pose proof (readOccupancy_nat (mkTrailMask (widthPixels m) (heightPixels m) o2) i) as R2.
  simpl in R1, R2. rewrite <- R1, <- R2.
  destruct (Hdec (Z.of_nat i)) as [Hin|Hout].
  - destruct (readOccupancy m (Z.of_nat i)) as [v|] eqn:Hread.
    + rewrite (stamped_set _ _ _ H1), (stamped_set _ _ _ H2); eauto.
    + rewrite readOccupancy_nat in Hread. apply lookup_ge_None in Hread.
      rewrite R1, R2.
      pose proof (stamped_length _ _ _ H1) as L1.
      pose proof (stamped_length _ _ _ H2) as L2. simpl in L1, L2.
      rewrite (proj2 (lookup_ge_None o1 i)), (proj2 (lookup_ge_None o2 i)); [done|lia|lia].
  - by rewrite (stamped_frame _ _ _ H1), (stamped_frame _ _ _ H2).
Qed.

Lemma stampIndices_dec (m : TrailMask) (cx cy r : Q) (j : Z) :
  stampIndices m cx cy r j \/ ~ stampIndices m cx cy r j.
Proof.
  destruct (decide (0 < widthPixels m)) as [Hw|Hw].
  - pose proof (Z.mod_pos_bound j (widthPixels m) Hw) as Hmod.
    pose proof (Z.div_mod j (widthPixels m)) as Hdm.
    destruct (inCircle_dec m cx cy r (j `mod` widthPixels m) (j `div` widthPixels m))
      as [[Hbox Hd]|Hout].
    + left. exists (j `mod` widthPixels m), (j `div` widthPixels m).
      split; [done|]. split; [done|]. lia.
    + right. intros (px & py & Hbox & Hd & Hj). apply Hout.
      assert (px = j `mod` widthPixels m /\ py = j `div` widthPixels m) as [-> ->].
      { apply (cell_index_inj (widthPixels m)); [by eapply inClampedBox_column|done|lia]. }
      done.
  - right. intros (px & py & Hbox & _). apply inClampedBox_column in Hbox. lia.
Qed.

Lemma stampIndices_same_size (m m' : TrailMask) (cx cy r : Q) (j : Z) :
  widthPixels m' = widthPixels m -> heightPixels m' = heightPixels m ->
  stampIndices m' cx cy r j <-> stampIndices m cx cy r j.
Proof.
  intros Ew Eh. unfold stampIndices, inClampedBox. by rewrite Ew, Eh.
Qed.

Lemma markVisitedCircle_stampIndices (m : TrailMask) (cx cy r : Q) :
  stamped (stampIndices m cx cy r) m (markVisitedCircle m cx cy r).
Proof. apply markVisitedCircle_stamped. Qed.

(** X5: stamping the same circle twice is the same as stamping it once. *)
Theorem markVisitedCircle_idempotent (mask : TrailMask) (cx cy r : Q) :
  markVisitedCircle (markVisitedCircle mask cx cy r) cx cy r =
  markVisitedCircle mask cx cy r.
Proof.
  pose proof (markVisitedCircle_stampIndices mask cx cy r) as H1.
  pose proof (markVisitedCircle_stampIndices (markVisitedCircle mask cx cy r) cx cy r)
    as H2.
  apply (stamped_unique (stampIndices mask cx cy r) mask);
    [apply stampIndices_dec| |done].
  eapply stamped_compose; [apply H1|apply H2|].
  intros j. rewrite (stampIndices_same_size mask (markVisitedCircle mask cx cy r));
    [tauto|apply H1|apply H1].
Qed.

(** X6: two stamps commute: the mask does not depend on the order in which
    two circles are stamped (so neither on which player is resolved first). *)
Theorem markVisitedCircle_commutes (mask : TrailMask) (ax ay ar bx by' br : Q) :
  markVisitedCircle (markVisitedCircle mask ax ay ar) bx by' br =
  markVisitedCircle (markVisitedCircle mask bx by' br) ax ay ar.
Proof.
  pose proof (markVisitedCircle_stampIndices mask ax ay ar) as Ha.
  pose proof (markVisitedCircle_stampIndices mask bx by' br) as Hb.
  pose proof (markVisitedCircle_stampIndices (markVisitedCircle mask ax ay ar) bx by' br)
    as Hab.
  pose proof (markVisitedCircle_stampIndices (markVisitedCircle mask bx by' br) ax ay ar)
    as Hba.
  apply (stamped_unique
           (fun j => stampIndices mask ax ay ar j \/ stampIndices mask bx by' br j)
           mask).
  - intros j. destruct (stampIndices_dec mask ax ay ar j);
      destruct (stampIndices_dec mask bx by' br j); tauto.
  - eapply stamped_compose; [apply Ha|apply Hab|].
    intros j. rewrite (stampIndices_same_size mask (markVisitedCircle mask ax ay ar));
      [tauto|apply Ha|apply Ha].
  - eapply stamped_compose; [apply Hb|apply Hba|].
    intros j. rewrite (stampIndices_same_size mask (markVisitedCircle mask bx by' br));
      [tauto|apply Hb|apply Hb].
Qed.

(** ** The tick, continued *)

Section TickFacts.

Variables (Math_cos Math_sin : Q -> Q) (Math_PI : Q).

Local Abbreviation movePlayer := (movePlayer Math_cos Math_sin).
Local Abbreviation candidate := (candidate Math_cos Math_sin).
Local Abbreviation step := (step Math_cos Math_sin Math_PI).
Local Abbreviation readyOne := (readyOne Math_PI).
Local Abbreviation readyTwo := (readyTwo Math_PI).
Local Abbreviation afterOne := (afterOne Math_cos Math_sin Math_PI).
Local Abbreviation afterTwo := (afterTwo Math_cos Math_sin Math_PI).
Local Abbreviation rotate := (rotate Math_PI).

(** Everything one block can do to its player and to the mask. *)
Lemma block_effect (self other : PlayerState) (mask : TrailMask) (w h : Z)
    (dt : Q) :
  let res := if isAlive self then movePlayer self other mask w h dt
             else (self, mask) in
  let cand := candidate self dt in
  angleRadians (fst res) = angleRadians self /\
  gap (fst res) = gap self /\
  lastRenderedPosition (fst res) = lastRenderedPosition self /\
  (isAlive (fst res) = true -> isAlive self = true) /\
  (isAlive (fst res) = false ->
     positionPixels (fst res) = positionPixels self /\
     scoreSeconds (fst res) = scoreSeconds self /\
     recentPositions (fst res) = recentPositions self /\
     gapCorridor (fst res) = gapCorridor self /\
     snd res = mask) /\
  (isAlive self = true -> isAlive (fst res) = true ->
     positionPixels (fst res) = cand /\
     scoreSeconds (fst res) = (scoreSeconds self + dt)%Q /\
     hitsBorder (x cand) (y cand) (inject_Z w) (inject_Z h)
       CONFIG.DOT.radiusPixels = false /\
     collidesWithTrailExcludingPoints mask (roundedPosition cand)
       CONFIG.DOT.radiusPixels (ignorePoints self other) ignoreMargin = false) /\
  (snd res = mask \/
   isActive (gap self) = false /\ isAlive (fst res) = true /\
   snd res = markVisitedCircle mask (x (roundedPosition cand))
               (y (roundedPosition cand)) CONFIG.DOT.radiusPixels).
Proof.
  intros res cand. subst res.
  destruct (isAlive self) eqn:Halive.
  - pose proof (movePlayer_outcome Math_cos Math_sin self other mask w h dt)
      as Hout. cbv zeta in Hout. fold cand in Hout.
    destruct (hitsBorder _ _ _ _ _).
    { rewrite Hout. cbn. rewrite ?Halive. intuition congruence. }
    destruct (collidesWithTrailExcludingPoints _ _ _ _ _).
    { rewrite Hout. cbn. rewrite ?Halive. intuition congruence. }
    destruct Hout as (Ha & Hp & Hs & Hg & Hstamp).
    destruct (isActive (gap self)) eqn:Hgap; destruct Hstamp as [E1 E2];
      rewrite Ha, Hp, Hs, Hg, E2; rewrite E1; cbn; rewrite ?Halive;
      intuition congruence.
  - cbn. rewrite ?Halive. intuition congruence.
Qed.

Lemma drawHeadWithGap_fields (p : PlayerState) :
  let p' := drawHeadWithGap p in
  isAlive p' = isAlive p /\ scoreSeconds p' = scoreSeconds p /\
  positionPixels p' = positionPixels p /\ gap p' = gap p /\
  recentPositions p' = recentPositions p /\ gapCorridor p' = gapCorridor p /\
  angleRadians p' = angleRadians p.
Proof. done. Qed.

(** The whole state after a running tick. *)
Lemma step_running_state (nowMs : Q) (st : RoundState) (rng : Rng) :
  running st ->
  step nowMs st rng =
    (let one' := fst (afterOne nowMs st rng) in
     let two' := fst (afterTwo nowMs st rng) in
     let bothDead := negb (isAlive one') && negb (isAlive two') in
     mkRoundState (negb bothDead) bothDead (snd (afterTwo nowMs st rng))
       (drawHeadWithGap one') (drawHeadWithGap two') (pressedKeys st) nowMs
       (clientWidth st) (clientHeight st),
     snd (readyTwo nowMs st rng)).
Proof.
  intros [Hmov Hend]. unfold step, afterTwo, afterOne, readyTwo, readyOne,
    tickDelta, bind, ret.
  rewrite Hmov, Hend. cbn [andb negb].
  destruct (tickGap _ _ rng) as [p1g rng1]. cbn [fst snd].
  destruct (tickGap _ _ rng1) as [p2g rng2]. cbn [fst snd].
  by destruct (_ && _).
Qed.

(** The whole state after a tick of a paused, idle or ended round. *)
Lemma step_idle_state (nowMs : Q) (st : RoundState) (rng : Rng) :
  ~ running st ->
  step nowMs st rng =
    (mkRoundState (isMoving st) (hasRoundEnded st) (trailMask st)
       (drawHeadWithGap (rotate (pressedKeys st) CONFIG.INPUT.playerOneTurnLeftKey
          CONFIG.INPUT.playerOneTurnRightKey (tickDelta nowMs st) (playerOne st)))
       (drawHeadWithGap (rotate (pressedKeys st) CONFIG.INPUT.playerTwoTurnLeftKey
          CONFIG.INPUT.playerTwoTurnRightKey (tickDelta nowMs st) (playerTwo st)))
       (pressedKeys st) nowMs (clientWidth st) (clientHeight st),
     rng).
Proof.
  intros Hnot. unfold step, running in *.
  destruct (isMoving st), (hasRoundEnded st); simpl; try done.
  by destruct Hnot.
Qed.

Lemma running_dec (st : RoundState) : running st \/ ~ running st.
Proof.
  unfold running. destruct (isMoving st), (hasRoundEnded st); intuition congruence.
Qed.

(** The players of a running tick, block by block. *)
Lemma afterOne_effect (nowMs : Q) (st : RoundState) (rng : Rng) :
  let one := fst (readyOne nowMs st rng) in
  let two := fst (readyTwo nowMs st rng) in
  afterOne nowMs st rng =
    if isAlive one
    then movePlayer one two (trailMask st) (clientWidth st) (clientHeight st)
           (tickDelta nowMs st)
    else (one, trailMask st).
Proof. done. Qed.

Lemma afterTwo_effect (nowMs : Q) (st : RoundState) (rng : Rng) :
  let two := fst (readyTwo nowMs st rng) in
  let r1 := afterOne nowMs st rng in
  afterTwo nowMs st rng =
    if isAlive two
    then movePlayer two (fst r1) (snd r1) (clientWidth st) (clientHeight st)
           (tickDelta nowMs st)
    else (two, snd r1).
Proof. done. Qed.

Lemma tickGap_dead (p : PlayerState) (dt : Q) (rng : Rng) :
  isAlive p = false -> tickGap p dt rng = (p, rng).
Proof. intros Hdead. unfold tickGap. by rewrite Hdead. Qed.

(** X7: a tick never revives a player, and never reopens an ended round. *)
Theorem step_never_revives (nowMs : Q) (st : RoundState) (rng : Rng) :
  let st' := fst (step nowMs st rng) in
  (isAlive (playerOne st') = true -> isAlive (playerOne st) = true) /\
  (isAlive (playerTwo st') = true -> isAlive (playerTwo st) = true) /\
  (hasRoundEnded st = true -> hasRoundEnded st' = true).
Proof.
  intros st'. subst st'.
  destruct (readyOne_fields Math_PI nowMs st rng) as (Ha1 & _).
  destruct (readyTwo_fields Math_PI nowMs st rng) as (Ha2 & _).
  destruct (running_dec st) as [Hrun|Hidle].
  - rewrite (step_running_state nowMs st rng Hrun). cbn.
    rewrite afterTwo_effect, afterOne_effect. cbv zeta.
    destruct (block_effect (fst (readyOne nowMs st rng)) (fst (readyTwo nowMs st rng))
                (trailMask st) (clientWidth st) (clientHeight st)
                (tickDelta nowMs st)) as (_ & _ & _ & R1 & _).
    set (r1 := if isAlive (fst (readyOne nowMs st rng)) then _ else _) in *.
    destruct (block_effect (fst (readyTwo nowMs st rng)) (fst r1) (snd r1)
                (clientWidth st) (clientHeight st) (tickDelta nowMs st))
      as (_ & _ & _ & R2 & _).
    rewrite <- Ha1, <- Ha2. destruct Hrun as [_ Hend].
    split; [done|]. split; [done|]. congruence.
  - rewrite (step_idle_state nowMs st rng Hidle). cbn.
    destruct (rotate_fields Math_PI (pressedKeys st)
                CONFIG.INPUT.playerOneTurnLeftKey
                CONFIG.INPUT.playerOneTurnRightKey (tickDelta nowMs st)
                (playerOne st)) as (-> & _).
    destruct (rotate_fields Math_PI (pressedKeys st)
                CONFIG.INPUT.playerTwoTurnLeftKey
                CONFIG.INPUT.playerTwoTurnRightKey (tickDelta nowMs st)
                (playerTwo st)) as (-> & _).
    done.
Qed.

(** X8: a running tick ends the round exactly when both players are dead
    after it, and movement stops exactly then. *)
Theorem running_tick_ends_round_when_both_dead
    (nowMs : Q) (st : RoundState) (rng : Rng) :
  running st ->
  let st' := fst (step nowMs st rng) in
  (hasRoundEnded st' = true <->
   isAlive (playerOne st') = false /\ isAlive (playerTwo st') = false) /\
  isMoving st' = negb (hasRoundEnded st').
Proof.
  intros Hrun st'. subst st'.
  rewrite (step_running_state nowMs st rng Hrun). cbn.
  destruct (isAlive (fst (afterOne nowMs st rng))),
    (isAlive (fst (afterTwo nowMs st rng))); cbn; intuition congruence.
Qed.

(** X9: a tick of a round that is not running (idle, paused or ended) only
    rotates: it draws no random number, leaves the mask and the round flags
    alone, records the timestamp, and leaves every player's position, alive
    flag, score, gap state and buffers as they were. *)
Theorem idle_tick_only_rotates (nowMs : Q) (st : RoundState) (rng : Rng) :
  ~ running st ->
  let st' := fst (step nowMs st rng) in
  snd (step nowMs st rng) = rng /\
  trailMask st' = trailMask st /\
  isMoving st' = isMoving st /\ hasRoundEnded st' = hasRoundEnded st /\
  lastTimestampMs st' = nowMs /\
  (positionPixels (playerOne st') = positionPixels (playerOne st) /\
   isAlive (playerOne st') = isAlive (playerOne st) /\
   scoreSeconds (playerOne st') = scoreSeconds (playerOne st) /\
   gap (playerOne st') = gap (playerOne st) /\
   recentPositions (playerOne st') = recentPositions (playerOne st) /\
   gapCorridor (playerOne st') = gapCorridor (playerOne st)) /\
  (positionPixels (playerTwo st') = positionPixels (playerTwo st) /\
   isAlive (playerTwo st') = isAlive (playerTwo st) /\
   scoreSeconds (playerTwo st') = scoreSeconds (playerTwo st) /\
   gap (playerTwo st') = gap (playerTwo st) /\
   recentPositions (playerTwo st') = recentPositions (playerTwo st) /\
   gapCorridor (playerTwo st') = gapCorridor (playerTwo st)).
Proof.
  intros Hidle st'. subst st'.
  rewrite (step_idle_state nowMs st rng Hidle). cbn.
  destruct (rotate_fields Math_PI (pressedKeys st)
              CONFIG.INPUT.playerOneTurnLeftKey
              CONFIG.INPUT.playerOneTurnRightKey (tickDelta nowMs st)
              (playerOne st)) as (-> & -> & -> & -> & -> & ->).
  destruct (rotate_fields Math_PI (pressedKeys st)
              CONFIG.INPUT.playerTwoTurnLeftKey
              CONFIG.INPUT.playerTwoTurnRightKey (tickDelta nowMs st)
              (playerTwo st)) as (-> & -> & -> & -> & -> & ->).
  done.
Qed.

Lemma readyOne_angle (nowMs : Q) (st : RoundState) (rng : Rng) :
  angleRadians (fst (readyOne nowMs st rng)) =
  angleRadians (rotate (pressedKeys st) CONFIG.INPUT.playerOneTurnLeftKey
                  CONFIG.INPUT.playerOneTurnRightKey (tickDelta nowMs st)
                  (playerOne st)).
Proof. unfold readyOne. apply tickGap_fields. Qed.

Lemma readyTwo_angle (nowMs : Q) (st : RoundState) (rng : Rng) :
  angleRadians (fst (readyTwo nowMs st rng)) =
  angleRadians (rotate (pressedKeys st) CONFIG.INPUT.playerTwoTurnLeftKey
                  CONFIG.INPUT.playerTwoTurnRightKey (tickDelta nowMs st)
                  (playerTwo st)).
Proof. unfold readyTwo. apply tickGap_fields. Qed.

(** X10: rotation is free: in every tick, running or not, for living and
    dead players alike, the heading after the tick is the heading before,
    less [turnSpeed * dt] when the left key is held, then plus
    [turnSpeed * dt] when the right key is held, computed in that order;
    nothing else in a tick changes a heading, and with no turn key held the
    heading keeps its value. *)
Theorem rotation_is_free (nowMs : Q) (st : RoundState) (rng : Rng) :
  let st' := fst (step nowMs st rng) in
  let k := (turnSpeedRadiansPerSecond Math_PI * tickDelta nowMs st)%Q in
  let turned (leftKey rightKey : string) (a : Q) : Q :=
    let a1 := if bool_decide (leftKey ∈ pressedKeys st) then (a - k)%Q else a in
    if bool_decide (rightKey ∈ pressedKeys st) then (a1 + k)%Q else a1 in
  angleRadians (playerOne st') =
    turned CONFIG.INPUT.playerOneTurnLeftKey CONFIG.INPUT.playerOneTurnRightKey
      (angleRadians (playerOne st)) /\
  angleRadians (playerTwo st') =
    turned CONFIG.INPUT.playerTwoTurnLeftKey CONFIG.INPUT.playerTwoTurnRightKey
      (angleRadians (playerTwo st)) /\
  (CONFIG.INPUT.playerOneTurnLeftKey ∉ pressedKeys st ->
   CONFIG.INPUT.playerOneTurnRightKey ∉ pressedKeys st ->
   angleRadians (playerOne st') = angleRadians (playerOne st)) /\
  (CONFIG.INPUT.playerTwoTurnLeftKey ∉ pressedKeys st ->
   CONFIG.INPUT.playerTwoTurnRightKey ∉ pressedKeys st ->
   angleRadians (playerTwo st') = angleRadians (playerTwo st)).
Proof.
  intros st' k turned. subst st' k turned. cbv beta zeta.
  assert (H1 : angleRadians (playerOne (fst (step nowMs st rng))) =
               angleRadians (rotate (pressedKeys st)
                  CONFIG.INPUT.playerOneTurnLeftKey
                  CONFIG.INPUT.playerOneTurnRightKey (tickDelta nowMs st)
                  (playerOne st)) /\
               angleRadians (playerTwo (fst (step nowMs st rng))) =
               angleRadians (rotate (pressedKeys st)
                  CONFIG.INPUT.playerTwoTurnLeftKey
                  CONFIG.INPUT.playerTwoTurnRightKey (tickDelta nowMs st)
                  (playerTwo st))).
  { destruct (running_dec st) as [Hrun|Hidle].
    - rewrite (step_running_state nowMs st rng Hrun). cbn.
      rewrite afterTwo_effect, afterOne_effect. cbv zeta.
      destruct (block_effect (fst (readyOne nowMs st rng))
                  (fst (readyTwo nowMs st rng)) (trailMask st) (clientWidth st)
                  (clientHeight st) (tickDelta nowMs st)) as (-> & _).
      set (r1 := if isAlive (fst (readyOne nowMs st rng)) then _ else _) in *.
      destruct (block_effect (fst (readyTwo nowMs st rng)) (fst r1) (snd r1)
                  (clientWidth st) (clientHeight st) (tickDelta nowMs st))
        as (-> & _).
      by rewrite readyOne_angle, readyTwo_angle.
    - rewrite (step_idle_state nowMs st rng Hidle). cbn. done. }
  destruct H1 as [-> ->]. unfold rotate.
  repeat split; repeat case_bool_decide; done.
Qed.

(** The two blocks of a running tick, with what each does. *)
Ltac running_blocks nowMs st rng Hrun B1 B2 :=
  rewrite (step_running_state nowMs st rng Hrun); cbn;
  rewrite ?afterTwo_effect, ?afterOne_effect; cbv zeta;
  pose proof (block_effect (fst (readyOne nowMs st rng))
                (fst (readyTwo nowMs st rng)) (trailMask st) (clientWidth st)
                (clientHeight st) (tickDelta nowMs st)) as B1;
  cbv zeta in B1;
  set (r1 := if isAlive (fst (readyOne nowMs st rng)) then _ else _) in *;
  pose proof (block_effect (fst (readyTwo nowMs st rng)) (fst r1) (snd r1)
                (clientWidth st) (clientHeight st) (tickDelta nowMs st)) as B2;
  cbv zeta in B2;
  set (r2 := if isAlive (fst (readyTwo nowMs st rng)) then _ else _) in *.

(** X11: in a running tick a player that was alive either survives, and then
    stands at its candidate position with its score raised by exactly the
    delta time, or dies, and then keeps its position, score and buffers. *)
Theorem survivor_moves_and_scores (nowMs : Q) (st : RoundState) (rng : Rng) :
  running st ->
  let dt := tickDelta nowMs st in
  let st' := fst (step nowMs st rng) in
  let one := fst (readyOne nowMs st rng) in
  let two := fst (readyTwo nowMs st rng) in
  (isAlive (playerOne st) = true ->
   (isAlive (playerOne st') = true ->
      positionPixels (playerOne st') = candidate one dt /\
      scoreSeconds (playerOne st') = (scoreSeconds (playerOne st) + dt)%Q) /\
   (isAlive (playerOne st') = false ->
      positionPixels (playerOne st') = positionPixels (playerOne st) /\
      scoreSeconds (playerOne st') = scoreSeconds (playerOne st) /\
      recentPositions (playerOne st') = recentPositions (playerOne st) /\
      gapCorridor (playerOne st') = gapCorridor (playerOne st))) /\
  (isAlive (playerTwo st) = true ->
   (isAlive (playerTwo st') = true ->
      positionPixels (playerTwo st') = candidate two dt /\
      scoreSeconds (playerTwo st') = (scoreSeconds (playerTwo st) + dt)%Q) /\
   (isAlive (playerTwo st') = false ->
      positionPixels (playerTwo st') = positionPixels (playerTwo st) /\
      scoreSeconds (playerTwo st') = scoreSeconds (playerTwo st) /\
      recentPositions (playerTwo st') = recentPositions (playerTwo st) /\
      gapCorridor (playerTwo st') = gapCorridor (playerTwo st))).
Proof.
  intros Hrun dt st' one two. subst dt st' one two.
  destruct (readyOne_fields Math_PI nowMs st rng) as (Ha1 & Hs1 & Hp1 & Hr1 & Hc1).
  destruct (readyTwo_fields Math_PI nowMs st rng) as (Ha2 & Hs2 & Hp2 & Hr2 & Hc2).
  running_blocks nowMs st rng Hrun B1 B2.
  destruct B1 as (_ & _ & _ & _ & D1 & S1 & _).
  destruct B2 as (_ & _ & _ & _ & D2 & S2 & _).
  rewrite <- Ha1, <- Hs1, <- Hp1, <- Hr1, <- Hc1.
  rewrite <- Ha2, <- Hs2, <- Hp2, <- Hr2, <- Hc2.
  split; intros Halive; split; intros Hafter.
  - destruct (S1 Halive Hafter) as (? & ? & _). done.
  - destruct (D1 Hafter) as (? & ? & ? & ? & _). done.
  - destruct (S2 Halive Hafter) as (? & ? & _). done.
  - destruct (D2 Hafter) as (? & ? & ? & ? & _). done.
Qed.

(** X12: the tick keeps the invariant of the data model: if every living
    player stands inside the safe rectangle of the canvas before the tick,
    so it does after the tick. *)
Theorem step_keeps_living_players_inside
    (nowMs : Q) (st : RoundState) (rng : Rng) :
  aliveInsideSafeRectangle st (playerOne st) ->
  aliveInsideSafeRectangle st (playerTwo st) ->
  let st' := fst (step nowMs st rng) in
  aliveInsideSafeRectangle st' (playerOne st') /\
  aliveInsideSafeRectangle st' (playerTwo st').
Proof.
  intros I1 I2 st'. subst st'. unfold aliveInsideSafeRectangle in *.
  destruct (running_dec st) as [Hrun|Hidle].
  - destruct (readyOne_fields Math_PI nowMs st rng) as (Ha1 & _ & Hp1 & _).
    destruct (readyTwo_fields Math_PI nowMs st rng) as (Ha2 & _ & Hp2 & _).
    running_blocks nowMs st rng Hrun B1 B2.
    destruct B1 as (_ & _ & _ & R1 & _ & S1 & _).
    destruct B2 as (_ & _ & _ & R2 & _ & S2 & _).
    split; intros Hafter.
    + destruct (S1 (R1 Hafter) Hafter) as (-> & _ & Hin & _).
      by apply hitsBorder_false.
    + destruct (S2 (R2 Hafter) Hafter) as (-> & _ & Hin & _).
      by apply hitsBorder_false.
  - rewrite (step_idle_state nowMs st rng Hidle). cbn.
    destruct (rotate_fields Math_PI (pressedKeys st)
                CONFIG.INPUT.playerOneTurnLeftKey
                CONFIG.INPUT.playerOneTurnRightKey (tickDelta nowMs st)
                (playerOne st)) as (-> & _ & -> & _).
    destruct (rotate_fields Math_PI (pressedKeys st)
                CONFIG.INPUT.playerTwoTurnLeftKey
                CONFIG.INPUT.playerTwoTurnRightKey (tickDelta nowMs st)
                (playerTwo st)) as (-> & _ & -> & _).
    done.
Qed.

Lemma block_mask_kept (mask mask' : TrailMask) (sx sy sr : Q) :
  mask' = mask \/ mask' = markVisitedCircle mask sx sy sr ->
  widthPixels mask' = widthPixels mask /\
  heightPixels mask' = heightPixels mask /\
  length (occupancy mask') = length (occupancy mask) /\
  forall px py, occupied mask px py -> occupied mask' px py.
Proof.
  intros [->| ->]; [done|].
  pose proof (markVisitedCircle_stamped mask sx sy sr) as Hst.
  split; [apply Hst|]. split; [apply Hst|]. split; [apply Hst|].
  intros px py. apply markVisitedCircle_kept.
Qed.

(** X13: a tick only adds trail: the mask keeps its size, and every pixel
    that is occupied before the tick is occupied after it. *)
Theorem step_only_adds_trail (nowMs : Q) (st : RoundState) (rng : Rng) :
  let st' := fst (step nowMs st rng) in
  widthPixels (trailMask st') = widthPixels (trailMask st) /\
  heightPixels (trailMask st') = heightPixels (trailMask st) /\
  length (occupancy (trailMask st')) = length (occupancy (trailMask st)) /\
  forall px py, occupied (trailMask st) px py -> occupied (trailMask st') px py.
Proof.
  intros st'. subst st'.
  destruct (running_dec st) as [Hrun|Hidle].
  - running_blocks nowMs st rng Hrun B1 B2.
    destruct B1 as (_ & _ & _ & _ & _ & _ & M1).
    destruct B2 as (_ & _ & _ & _ & _ & _ & M2).
    assert (K1 : widthPixels (snd r1) = widthPixels (trailMask st) /\
                 heightPixels (snd r1) = heightPixels (trailMask st) /\
                 length (occupancy (snd r1)) = length (occupancy (trailMask st)) /\
                 forall px py, occupied (trailMask st) px py -> occupied (snd r1) px py).
    { destruct M1 as [E|(_ & _ & E)];
        [apply (block_mask_kept _ _ 0 0 0); by left
        |eapply block_mask_kept; right; exact E]. }
    assert (K2 : widthPixels (snd r2) = widthPixels (snd r1) /\
                 heightPixels (snd r2) = heightPixels (snd r1) /\
                 length (occupancy (snd r2)) = length (occupancy (snd r1)) /\
                 forall px py, occupied (snd r1) px py -> occupied (snd r2) px py).
    { destruct M2 as [E|(_ & _ & E)];
        [apply (block_mask_kept _ _ 0 0 0); by left
        |eapply block_mask_kept; right; exact E]. }
    destruct K1 as (W1 & H1 & L1 & K1). destruct K2 as (W2 & H2 & L2 & K2).
    rewrite W2, H2, L2. repeat split; auto.
  - rewrite (step_idle_state nowMs st rng Hidle). cbn. done.
Qed.

(** X14: movement inside a gap leaves no trail: when after the tick every
    player is dead or has its gap active, the tick has left the mask as it
    was. *)
Theorem gap_or_dead_players_leave_no_trail
    (nowMs : Q) (st : RoundState) (rng : Rng) :
  let st' := fst (step nowMs st rng) in
  (isAlive (playerOne st') = false \/ isActive (gap (playerOne st')) = true) ->
  (isAlive (playerTwo st') = false \/ isActive (gap (playerTwo st')) = true) ->
  trailMask st' = trailMask st.
Proof.
  intros st'. subst st'.
  destruct (running_dec st) as [Hrun|Hidle].
  - running_blocks nowMs st rng Hrun B1 B2.
    destruct B1 as (_ & G1 & _ & _ & _ & _ & M1).
    destruct B2 as (_ & G2 & _ & _ & _ & _ & M2).
    rewrite G1, G2. intros H1 H2.
    destruct M2 as [->|(? & ? & _)]; [|intuition congruence].
    destruct M1 as [->|(? & ? & _)]; [done|intuition congruence].
  - rewrite (step_idle_state nowMs st rng Hidle). cbn. done.
Qed.

Lemma readyOne_dead (nowMs : Q) (st : RoundState) (rng : Rng) :
  isAlive (playerOne st) = false ->
  gap (fst (readyOne nowMs st rng)) = gap (playerOne st) /\
  snd (readyOne nowMs st rng) = rng.
Proof.
  intros Hdead. unfold readyOne.
  destruct (rotate_fields Math_PI (pressedKeys st)
              CONFIG.INPUT.playerOneTurnLeftKey
              CONFIG.INPUT.playerOneTurnRightKey (tickDelta nowMs st)
              (playerOne st)) as (Ha & _ & _ & Hg & _).
  rewrite tickGap_dead by congruence. done.
Qed.

Lemma readyTwo_dead (nowMs : Q) (st : RoundState) (rng : Rng) :
  isAlive (playerTwo st) = false ->
  gap (fst (readyTwo nowMs st rng)) = gap (playerTwo st) /\
  snd (readyTwo nowMs st rng) = snd (readyOne nowMs st rng).
Proof.
  intros Hdead. unfold readyTwo.
  destruct (rotate_fields Math_PI (pressedKeys st)
              CONFIG.INPUT.playerTwoTurnLeftKey
              CONFIG.INPUT.playerTwoTurnRightKey (tickDelta nowMs st)
              (playerTwo st)) as (Ha & _ & _ & Hg & _).
  rewrite tickGap_dead by congruence. done.
Qed.

(** X15: a dead player is frozen apart from its heading: a tick leaves its
    alive flag, gap state, recent buffer and gap corridor as they were, and
    when both players are dead it draws no random number. *)
Theorem dead_player_is_frozen (nowMs : Q) (st : RoundState) (rng : Rng) :
  let st' := fst (step nowMs st rng) in
  (isAlive (playerOne st) = false ->
     isAlive (playerOne st') = false /\ gap (playerOne st') = gap (playerOne st) /\
     recentPositions (playerOne st') = recentPositions (playerOne st) /\
     gapCorridor (playerOne st') = gapCorridor (playerOne st)) /\
  (isAlive (playerTwo st) = false ->
     isAlive (playerTwo st') = false /\ gap (playerTwo st') = gap (playerTwo st) /\
     recentPositions (playerTwo st') = recentPositions (playerTwo st) /\
     gapCorridor (playerTwo st') = gapCorridor (playerTwo st)) /\
  (isAlive (playerOne st) = false -> isAlive (playerTwo st) = false ->
     snd (step nowMs st rng) = rng).
Proof.
  intros st'. subst st'.
  destruct (running_dec st) as [Hrun|Hidle].
  - destruct (readyOne_fields Math_PI nowMs st rng) as (Ha1 & _ & _ & Hr1 & Hc1).
    destruct (readyTwo_fields Math_PI nowMs st rng) as (Ha2 & _ & _ & Hr2 & Hc2).
    pose proof (readyOne_dead nowMs st rng) as Hd1.
    pose proof (readyTwo_dead nowMs st rng) as Hd2.
    running_blocks nowMs st rng Hrun B1 B2.
    destruct B1 as (_ & G1 & _ & R1 & D1 & _).
    destruct B2 as (_ & G2 & _ & R2 & D2 & _).
    rewrite G1, G2.
    split; [|split].
    + intros Hdead. destruct (Hd1 Hdead) as [-> _].
      assert (Hafter : isAlive (fst r1) = false).
      { destruct (isAlive (fst r1)); [|done]. rewrite R1 in Ha1 by done. congruence. }
      destruct (D1 Hafter) as (_ & _ & -> & -> & _). by rewrite Hr1, Hc1.
    + intros Hdead. destruct (Hd2 Hdead) as [-> _].
      assert (Hafter : isAlive (fst r2) = false).
      { destruct (isAlive (fst r2)); [|done]. rewrite R2 in Ha2 by done. congruence. }
      destruct (D2 Hafter) as (_ & _ & -> & -> & _). by rewrite Hr2, Hc2.
    + intros Hdead1 Hdead2. destruct (Hd1 Hdead1) as [_ E1].
      destruct (Hd2 Hdead2) as [_ E2]. congruence.
  - rewrite (step_idle_state nowMs st rng Hidle). cbn.
    destruct (rotate_fields Math_PI (pressedKeys st)
                CONFIG.INPUT.playerOneTurnLeftKey
                CONFIG.INPUT.playerOneTurnRightKey (tickDelta nowMs st)
                (playerOne st)) as (-> & _ & _ & -> & -> & ->).
    destruct (rotate_fields Math_PI (pressedKeys st)
                CONFIG.INPUT.playerTwoTurnLeftKey
                CONFIG.INPUT.playerTwoTurnRightKey (tickDelta nowMs st)
                (playerTwo st)) as (-> & _ & _ & -> & -> & ->).
    done.
Qed.

End TickFacts.

Lemma running_tick_ends_round_when_both_dead_witness :
  isMoving (fst (step cosAtZero sinAtZero piApprox (25 # 2) crossingRound halves))
  = negb (hasRoundEnded
            (fst (step cosAtZero sinAtZero piApprox (25 # 2) crossingRound halves))).
Proof.
  apply (running_tick_ends_round_when_both_dead cosAtZero sinAtZero piApprox
           (25 # 2) crossingRound halves).
  split; reflexivity.
Defined.

Lemma idle_tick_only_rotates_witness :
  trailMask (fst (step cosAtZero sinAtZero piApprox (25 # 2) endedRound halves))
  = trailMask endedRound.
Proof.
  apply (idle_tick_only_rotates cosAtZero sinAtZero piApprox
           (25 # 2) endedRound halves).
  intros [Hmov _]. discriminate.
Defined.

Lemma survivor_moves_and_scores_witness :
  scoreSeconds (playerTwo (fst (step cosAtZero sinAtZero piApprox (25 # 2)
                                  crossingRound halves)))
  = (3 + tickDelta (25 # 2) crossingRound)%Q.
Proof.
  assert (Hrun : running crossingRound) by (split; reflexivity).
  destruct (survivor_moves_and_scores cosAtZero sinAtZero piApprox
              (25 # 2) crossingRound halves Hrun) as [_ Htwo].
  destruct (Htwo eq_refl) as [Hlive _].
  destruct Hlive as [_ Hscore]; [vm_compute; reflexivity|].
  exact Hscore.
Defined.

Lemma step_keeps_living_players_inside_witness :
  let st' := fst (step cosAtZero sinAtZero piApprox (25 # 2) (borderRound false)
                    halves) in
  insideSafeRectangle (x (positionPixels (playerOne st')))
    (y (positionPixels (playerOne st'))) (inject_Z (clientWidth st'))
    (inject_Z (clientHeight st')) CONFIG.DOT.radiusPixels.
Proof.
  destruct (step_keeps_living_players_inside cosAtZero sinAtZero piApprox
              (25 # 2) (borderRound false) halves) as [Hone _].
  - intros _. vm_compute. intuition discriminate.
  - intros _. vm_compute. intuition discriminate.
  - apply Hone. vm_compute. reflexivity.
Defined.

(** A running tick in which both players move inside a gap. *)
Lemma gap_or_dead_players_leave_no_trail_witness :
  trailMask (fst (step cosAtZero sinAtZero piApprox (25 # 2) gapRound halves))
  = trailMask gapRound /\
  gapCorridor (playerOne (fst (step cosAtZero sinAtZero piApprox (25 # 2)
                                 gapRound halves))) = [mkVector2D 57 52] /\
  gapCorridor (playerTwo (fst (step cosAtZero sinAtZero piApprox (25 # 2)
                                 gapRound halves))) = [mkVector2D 21 20].
Proof.
  split; [|split; vm_compute; reflexivity].
  apply (gap_or_dead_players_leave_no_trail cosAtZero sinAtZero piApprox
           (25 # 2) gapRound halves); right; vm_compute; reflexivity.
Defined.

(** ** Keys *)

(** X16: the toggle key pauses and resumes a round that has not ended, and
    does nothing once it has: in an ended round the handler returns the state
    as it is; otherwise it flips [isMoving] and nothing else, and a second
    press restores the state.  It never draws a random number. *)
Theorem toggle_key_pauses_and_resumes
    (window : Window) (st : RoundState) (rng : Rng) :
  let press := handleKeyDown window CONFIG.INPUT.toggleMovementKey in
  (hasRoundEnded st = true -> press st rng = Some (st, rng)) /\
  (hasRoundEnded st = false ->
   exists st1,
     press st rng = Some (st1, rng) /\
     isMoving st1 = negb (isMoving st) /\
     hasRoundEnded st1 = false /\
     trailMask st1 = trailMask st /\
     playerOne st1 = playerOne st /\ playerTwo st1 = playerTwo st /\
     pressedKeys st1 = pressedKeys st /\
     press st1 rng = Some (st, rng)).
Proof.
  intros press. subst press. unfold handleKeyDown.
  rewrite bool_decide_true by done. split; intros Hend; rewrite Hend; [done|].
  eexists. split; [reflexivity|]. cbn [isMoving hasRoundEnded trailMask playerOne
    playerTwo pressedKeys lastTimestampMs clientWidth clientHeight].
  repeat split; try done.
  destruct st; cbn in *. subst. by rewrite negb_involutive.
Qed.

(** X17: pressing and releasing a turn key (any key other than the toggle
    and restart keys): after the press the key is held, together with
    exactly the keys held before, without duplicates; after the release it
    is no longer held and the other keys still are; neither handler touches
    the round, the mask, the players or the random source. *)
Theorem key_press_then_release
    (window : Window) (key : string) (st : RoundState) (rng : Rng) :
  key <> CONFIG.INPUT.toggleMovementKey -> key <> CONFIG.INPUT.restartKey ->
  exists st1,
    handleKeyDown window key st rng = Some (st1, rng) /\
    (forall k, k ∈ pressedKeys st1 <-> k = key \/ k ∈ pressedKeys st) /\
    (NoDup (pressedKeys st) -> NoDup (pressedKeys st1)) /\
    (key ∈ pressedKeys st -> st1 = st) /\
    (forall k, k ∈ pressedKeys (handleKeyUp key st1) <->
               k <> key /\ k ∈ pressedKeys st) /\
    (isMoving st1, hasRoundEnded st1, trailMask st1, playerOne st1, playerTwo st1)
      = (isMoving st, hasRoundEnded st, trailMask st, playerOne st, playerTwo st) /\
    (isMoving (handleKeyUp key st1), hasRoundEnded (handleKeyUp key st1),
     trailMask (handleKeyUp key st1), playerOne (handleKeyUp key st1),
     playerTwo (handleKeyUp key st1))
      = (isMoving st, hasRoundEnded st, trailMask st, playerOne st, playerTwo st).
Proof.
  intros Hnt Hnr. unfold handleKeyDown, handleKeyUp.
  rewrite !bool_decide_false by done.
  eexists. split; [reflexivity|]. cbn.
  case_bool_decide as Hheld.
  - split. { intros k. split; [by right|]. by intros [->|]. }
    split; [done|].
    split. { intros _. by destruct st. }
    split. { intros k. rewrite list_elem_of_filter. tauto. }
    split; done.
  - split. { intros k. rewrite elem_of_app, list_elem_of_singleton. tauto. }
    split.
    { intros Hnd. apply NoDup_app. repeat split; [done| |apply NoDup_singleton].
      intros k Hk ->%list_elem_of_singleton. done. }
    split; [done|].
    split.
    { intros k. rewrite list_elem_of_filter, elem_of_app, list_elem_of_singleton.
      split; [intros [Hk [Hin| ->]]; done|intros [? ?]; auto]. }
    split; done.
Qed.

Lemma key_press_then_release_witness :
  exists st1,
    handleKeyDown (mkWindow 100 100) "a" crossingRound halves = Some (st1, halves) /\
    pressedKeys st1 = ["a"] /\ pressedKeys (handleKeyUp "a" st1) = [].
Proof.
  destruct (key_press_then_release (mkWindow 100 100) "a" crossingRound halves)
    as (st1 & Hdown & _); [discriminate|discriminate|].
  exists st1. split; [exact Hdown|].
  vm_compute in Hdown. injection Hdown as <-. split; reflexivity.
Defined.

(** ** Reset, continued *)

(** X18: [resetRound] fails when the surface area is negative (the typed
    array cannot be allocated).  When it returns it has drawn exactly six
    random numbers, sized canvas and mask to the window, kept the held
    keys and the timestamp, and given both players heading 0, an empty gap
    corridor, no rendered position and a solid gap state, keeping their
    labels and colours. *)
Theorem resetRound_outcome (window : Window) (st : RoundState) (rng : Rng) :
  (innerWidth window * innerHeight window < 0 -> resetRound window st rng = None) /\
  forall st' rng', resetRound window st rng = Some (st', rng') ->
    rng' = skipDraws 6 rng /\
    pressedKeys st' = pressedKeys st /\
    lastTimestampMs st' = lastTimestampMs st /\
    clientWidth st' = innerWidth window /\
    clientHeight st' = innerHeight window /\
    widthPixels (trailMask st') = innerWidth window /\
    heightPixels (trailMask st') = innerHeight window /\
    length (occupancy (trailMask st')) =
      Z.to_nat (innerWidth window * innerHeight window) /\
    (angleRadians (playerOne st') = 0%Q /\ gapCorridor (playerOne st') = [] /\
     lastRenderedPosition (playerOne st') = None /\
     isActive (gap (playerOne st')) = false /\
     label (playerOne st') = label (playerOne st) /\
     colorHex (playerOne st') = colorHex (playerOne st)) /\
    (angleRadians (playerTwo st') = 0%Q /\ gapCorridor (playerTwo st') = [] /\
     lastRenderedPosition (playerTwo st') = None /\
     isActive (gap (playerTwo st')) = false /\
     label (playerTwo st') = label (playerTwo st) /\
     colorHex (playerTwo st') = colorHex (playerTwo st)).
Proof.
  unfold resetRound.
  destruct (createTrailMask (innerWidth window) (innerHeight window))
    as [mask0|] eqn:Hnew.
  - split.
    + intros Hneg. unfold createTrailMask in Hnew.
      apply Z.ltb_lt in Hneg. rewrite Hneg in Hnew. discriminate.
    + intros st' rng' [= <- <-].
      apply createTrailMask_spec in Hnew as (Ew & Eh & Eo).
      unfold bind, ret, initGapState, randomInRange, Math_random, bind, ret.
      cbv zeta. cbn [trailMask playerOne playerTwo pressedKeys lastTimestampMs
                       clientWidth clientHeight fst snd].
      pose proof (markVisitedCircle_stamped mask0) as Hst.
      repeat match goal with
             | |- context [markVisitedCircle (markVisitedCircle ?m ?a ?b ?c) ?d ?e ?f] =>
                 rewrite (stamped_width _ _ _ (markVisitedCircle_stamped
                            (markVisitedCircle m a b c) d e f)),
                         (stamped_height _ _ _ (markVisitedCircle_stamped
                            (markVisitedCircle m a b c) d e f)),
                         (stamped_length _ _ _ (markVisitedCircle_stamped
                            (markVisitedCircle m a b c) d e f)),
                         (stamped_width _ _ _ (markVisitedCircle_stamped m a b c)),
                         (stamped_height _ _ _ (markVisitedCircle_stamped m a b c)),
                         (stamped_length _ _ _ (markVisitedCircle_stamped m a b c))
             end.
      rewrite Ew, Eh, Eo, length_replicate.
      repeat split; reflexivity.
  - split; [done|discriminate].
Qed.

(** X19: on a surface of at least 20 x 20 pixels, with draws in [0, 1), both
    players spawn inside the safe rectangle of the canvas [resetRound] set
    (so the reset establishes the invariant the tick keeps), and each
    player's first gap countdown lies in [minInterval, maxInterval]. *)
Theorem resetRound_spawns_inside_safe_rectangle
    (window : Window) (st st' : RoundState) (rng rng' : Rng) :
  20 <= innerWidth window -> 20 <= innerHeight window -> unitDraws rng ->
  resetRound window st rng = Some (st', rng') ->
  insideSafeRectangle (x (positionPixels (playerOne st')))
    (y (positionPixels (playerOne st'))) (inject_Z (clientWidth st'))
    (inject_Z (clientHeight st')) CONFIG.DOT.radiusPixels /\
  insideSafeRectangle (x (positionPixels (playerTwo st')))
    (y (positionPixels (playerTwo st'))) (inject_Z (clientWidth st'))
    (inject_Z (clientHeight st')) CONFIG.DOT.radiusPixels /\
  (CONFIG.GAPS.minIntervalSeconds <= timeUntilNextGap (gap (playerOne st'))
     <= CONFIG.GAPS.maxIntervalSeconds)%Q /\
  (CONFIG.GAPS.minIntervalSeconds <= timeUntilNextGap (gap (playerTwo st'))
     <= CONFIG.GAPS.maxIntervalSeconds)%Q.
Proof.
  intros Hw Hh Hrng. unfold resetRound.
  destruct (createTrailMask _ _) as [mask0|]; [|discriminate].
  intros [= <- <-].
  unfold bind, ret, initGapState, randomInRange, Math_random, bind, ret.
  cbv zeta. unfold insideSafeRectangle, safeMin, safeMax.
  cbn [trailMask playerOne playerTwo clientWidth clientHeight fst snd
       pushRecent set_recentPositions respawn positionPixels gap isAlive x y
       timeUntilNextGap].
  rewrite Zle_Qle in Hw, Hh. change (inject_Z 20) with 20%Q in Hw, Hh.
  unfold CONFIG.BORDER.insetPixels, CONFIG.BORDER.thicknessPixels,
    CONFIG.DOT.radiusPixels.
  pose proof (Hrng 0%nat) as U0. pose proof (Hrng 1%nat) as U1.
  pose proof (Hrng 2%nat) as U2. pose proof (Hrng 3%nat) as U3.
  pose proof (draw_in_interval CONFIG.GAPS.minIntervalSeconds
                CONFIG.GAPS.maxIntervalSeconds (rng 4%nat) eq_refl (Hrng 4%nat)) as G1.
  pose proof (draw_in_interval CONFIG.GAPS.minIntervalSeconds
                CONFIG.GAPS.maxIntervalSeconds (rng 5%nat) eq_refl (Hrng 5%nat)) as G2.
  set (w := inject_Z (innerWidth window)) in *.
  set (h := inject_Z (innerHeight window)) in *.
  split; [|split; [|split; [split; lra|split; lra]]]; (split; split; nra).
Qed.

Lemma resetRound_spawns_inside_safe_rectangle_witness :
  match resetRound (mkWindow 100 100) endedRound halves with
  | Some (st', _) =>
      insideSafeRectangle (x (positionPixels (playerOne st')))
        (y (positionPixels (playerOne st'))) (inject_Z (clientWidth st'))
        (inject_Z (clientHeight st')) CONFIG.DOT.radiusPixels
  | None => False
  end.
Proof.
  destruct (resetRound (mkWindow 100 100) endedRound halves)
    as [[st' rng']|] eqn:Hreset; [|by vm_compute in Hreset].
  apply (resetRound_spawns_inside_safe_rectangle (mkWindow 100 100)
           endedRound st' halves rng').
  - simpl; lia.
  - simpl; lia.
  - intros n. split; discriminate || reflexivity.
  - exact Hreset.
Defined.

(** ** Buffers, continued *)

(** X20: the two buffers evict differently.  [pushRecent] removes at most
    one entry per call: a buffer shorter than 10 grows by one, any other
    keeps its length (so a buffer longer than 10 would stay too long).
    [pushGapCorridor] cuts to the limit in one call: whatever the length
    before, it is at most 600 after.  In both, the point pushed is the last
    entry, and the other buffer is not touched. *)
Theorem push_eviction (player : PlayerState) (point : Vector2D) :
  length (recentPositions (pushRecent player point)) =
    (if (length (recentPositions player) <? 10)%nat
     then S (length (recentPositions player))
     else length (recentPositions player)) /\
  last (recentPositions (pushRecent player point)) = Some point /\
  gapCorridor (pushRecent player point) = gapCorridor player /\
  length (gapCorridor (pushGapCorridor player point)) =
    Nat.min (S (length (gapCorridor player))) 600 /\
  last (gapCorridor (pushGapCorridor player point)) = Some point /\
  recentPositions (pushGapCorridor player point) = recentPositions player.
Proof.
  unfold pushRecent, pushGapCorridor, CONFIG.TRAIL.recentIgnoreFrameCount,
    CONFIG.GAPS.corridorMaxPoints.
  cbn [recentPositions gapCorridor set_recentPositions set_gapCorridor].
  rewrite !length_app. simpl length.
  assert (Hlast : forall (l : list Vector2D) n,
             (n <= length l)%nat -> last (drop n (l ++ [point])) = Some point).
  { intros l n Hn. rewrite drop_app_le by done. apply last_snoc. }
  split; [|split; [|split; [done|split; [|split; [|done]]]]].
  - destruct (Nat.ltb_spec 10 (length (recentPositions player) + 1));
      destruct (Nat.ltb_spec (length (recentPositions player)) 10);
      rewrite ?length_drop, ?length_app; simpl; lia.
  - destruct (Nat.ltb_spec 10 (length (recentPositions player) + 1)).
    + apply Hlast. lia.
    + apply last_snoc.
  - destruct (Nat.ltb_spec 600 (length (gapCorridor player) + 1));
      rewrite ?length_drop, ?length_app; simpl; lia.
  - destruct (Nat.ltb_spec 600 (length (gapCorridor player) + 1)).
    + apply Hlast. lia.
    + apply last_snoc.
Qed.

(** ** Gap timers *)

(** X22: the timer that is counting down is positive between calls:
    [initGapState] starts with a positive countdown, and [updateGap] on a
    state whose running timer is positive returns a state whose running
    timer is positive, whatever the delta time (draws in [0, 1)).  A call
    flips the state exactly when the delta time reaches the running timer,
    and only then draws. *)
Theorem gap_timer_stays_positive (g : GapState) (dt : Q) (rng : Rng) :
  unitDraws rng -> (0 < currentTimer g)%Q ->
  (0 < currentTimer (fst (initGapState rng)))%Q /\
  isActive (fst (initGapState rng)) = false /\
  (0 < currentTimer (fst (updateGap g dt rng)))%Q /\
  (isActive (fst (updateGap g dt rng)) = negb (isActive g) <->
   (currentTimer g <= dt)%Q) /\
  ((dt < currentTimer g)%Q -> snd (updateGap g dt rng) = rng).
Proof.
  intros Hrng Hpos.
  split.
  { unfold initGapState, randomInRange, Math_random, bind, ret, currentTimer. cbn.
    pose proof (draw_in_interval CONFIG.GAPS.minIntervalSeconds
                  CONFIG.GAPS.maxIntervalSeconds (rng O) eq_refl (Hrng O)) as Hd.
    assert (0 < CONFIG.GAPS.minIntervalSeconds)%Q by reflexivity. lra. }
  split; [done|].
  destruct (Qle_bool (currentTimer g - dt) 0) eqn:Hhit.
  - pose proof (updateGap_flip g dt rng Hhit) as Hflip.
    destruct (updateGap g dt rng) as [g' rng']. cbn [fst snd].
    destruct Hflip as (Hact & Hnew & ->).
    apply Qle_bool_iff in Hhit.
    destruct (phase_interval_positive (isActive g')) as [Hmin Hlt].
    pose proof (draw_in_interval _ _ (rng O) Hlt (Hrng O)) as Hd.
    rewrite <- Hnew in Hd.
    split; [lra|]. split; [split; [lra|done]|]. intros Hlt'. lra.
  - pose proof (updateGap_stay g dt rng Hhit) as Hstay.
    destruct (updateGap g dt rng) as [g' rng']. cbn [fst snd].
    destruct Hstay as (Hact & Hnew & ->).
    assert (Hgt : ~ (currentTimer g - dt <= 0)%Q).
    { intros Hle. apply Qle_bool_iff in Hle. congruence. }
    rewrite Hnew, Hact. split; [lra|]. split; [|done].
    split; [by destruct (isActive g)|]. intros Hle. lra.
Qed.

Lemma gap_timer_stays_positive_witness :
  (0 < currentTimer (fst (updateGap (mkGapState false 1 0) 5 halves)))%Q.
Proof.
  apply (gap_timer_stays_positive (mkGapState false 1 0) 5 halves).
  - intros n. split; discriminate || reflexivity.
  - reflexivity.
Defined.

(** ** Index helpers *)

(** X23: [isInBounds] is what makes [toIndex] an index: for a pixel in
    bounds the index lies in [0, width * height), on a well-formed mask the
    array has an entry there, and two pixels in bounds with the same index
    are the same pixel. *)
Theorem toIndex_in_bounds (mask : TrailMask) (px py qx qy : Z) :
  isInBounds mask px py = true ->
  0 <= toIndex mask px py < widthPixels mask * heightPixels mask /\
  (wellFormed mask -> is_Some (readOccupancy mask (toIndex mask px py))) /\
  (isInBounds mask qx qy = true ->
   toIndex mask px py = toIndex mask qx qy -> px = qx /\ py = qy).
Proof.
  unfold isInBounds, toIndex. rewrite !andb_true_iff.
  intros [[[Hx0 Hy0] Hx1] Hy1].
  apply Z.leb_le in Hx0, Hy0. apply Z.ltb_lt in Hx1, Hy1.
  split; [nia|]. split.
  - intros Hwf. apply (wellFormed_cell mask px py Hwf). unfold inGrid. lia.
  - intros [[[Qx0 Qy0] Qx1] Qy1] Heq.
    apply Z.leb_le in Qx0. apply Z.ltb_lt in Qx1.
    apply (cell_index_inj (widthPixels mask)); [lia|lia|done].
Qed.

Lemma toIndex_in_bounds_witness :
  0 <= toIndex (mkTrailMask 4 3 (replicate 12 0)) 3 2 < 4 * 3.
Proof.
  apply (toIndex_in_bounds (mkTrailMask 4 3 (replicate 12 0)) 3 2 0 0).
  reflexivity.
Defined.

(** ** The single-player snapshot *)

(** The array indices the snapshot's stamp writes to: the distance is taken
    to [(cx, cx)]. *)
Lemma single_player_stamped (m : TrailMask) (cx cy r : Q) :
  stamped (fun j => exists px py,
             inClampedBox m cx cy r px py /\
             (distanceSquaredTo px py cx cx <= r * r)%Q /\
             j = py * widthPixels m + px)
          m (SinglePlayer.markVisitedCircle m cx cy r).
Proof.
  unfold SinglePlayer.markVisitedCircle.
  eapply stamped_compose;
    [apply stamped_foldl with (S := (fun py j => exists px,
              inClampedBox m cx cy r px py /\
              (distanceSquaredTo px py cx cx <= r * r)%Q /\
              j = py * widthPixels m + px))
    |apply (stamped_nothing (fun _ => False)); tauto|].
  - intros m1 py Hpy. apply elem_of_loopRange in Hpy.
    eapply stamped_compose;
      [apply stamped_foldl with (S := (fun px j =>
                (distanceSquaredTo px py cx cx <= r * r)%Q /\
                j = py * widthPixels m + px))
      |apply (stamped_nothing (fun _ => False)); tauto|].
    + intros m2 px Hpx.
      cbv beta zeta. unfold distanceSquaredTo.
      destruct (Qle_bool _ _) eqn:Hd.
      * apply Qle_bool_iff in Hd.
        eapply stamped_compose;
          [apply stamped_write|apply (stamped_nothing (fun _ => False)); tauto|].
        intros j; simpl. intuition.
      * apply stamped_nothing. intros j [Hle _].
        apply Qle_bool_iff in Hle. congruence.
    + intros j; simpl. split.
      * intros (px & Hbox & Hd & ->). left. exists px. split; [|done].
        apply elem_of_loopRange, Hbox.
      * intros [(px & Hpx & Hd & ->)|[]]. exists px. split; [|done].
        apply elem_of_loopRange in Hpx. done.
  - intros j; simpl. split.
    + intros (px & py & Hbox & Hd & ->). left. exists py. split.
      * apply elem_of_loopRange, Hbox.
      * eauto.
    + intros [(py & Hpy & px & Hbox & Hd & ->)|[]]. eauto.
Qed.

(** X24: the stamp of the single-player snapshot is skewed: it takes the
    vertical offset from [centerX], so on a well-formed mask a pixel of the
    grid is occupied after the stamp exactly when it was occupied before or
    lies in the clamped bounding box of the circle around [(cx, cy)] with
    squared distance at most [r * r] to [(cx, cx)]. *)
Theorem single_player_stamp_is_skewed
    (mask : TrailMask) (cx cy r : Q) (px py : Z) :
  wellFormed mask -> inGrid mask px py ->
  (occupied (SinglePlayer.markVisitedCircle mask cx cy r) px py <->
   occupied mask px py \/
   (inClampedBox mask cx cy r px py /\
    (distanceSquaredTo px py cx cx <= r * r)%Q)).
Proof.
  intros Hwf Hgrid. pose proof (single_player_stamped mask cx cy r) as Hst.
  unfold occupied, cellOccupancy. rewrite (stamped_width _ _ _ Hst).
  split.
  - intros Hocc.
    destruct (decide (inClampedBox mask cx cy r px py)) as [Hbox|Hbox].
    + destruct (Qlt_le_dec (r * r) (distanceSquaredTo px py cx cx)) as [Hlt|Hle];
        [|by right].
      left. rewrite <- Hocc. symmetry. apply (stamped_frame _ _ _ Hst).
      intros (qx & qy & Hqbox & Hd & Heq).
      apply cell_index_inj in Heq as [-> ->];
        [|apply Hgrid|by eapply inClampedBox_column].
      by apply Qle_not_lt in Hd.
    + left. rewrite <- Hocc. symmetry. apply (stamped_frame _ _ _ Hst).
      intros (qx & qy & Hqbox & Hd & Heq).
      apply cell_index_inj in Heq as [-> ->];
        [|apply Hgrid|by eapply inClampedBox_column].
      done.
  - intros [Hocc|[Hbox Hd]].
    + by apply (stamped_keep _ _ _ Hst).
    + apply (stamped_set _ _ _ Hst); [eauto|].
      by apply wellFormed_cell.
Qed.

Lemma single_player_stamp_is_skewed_witness :
  occupied (SinglePlayer.markVisitedCircle (mkTrailMask 9 9 (replicate 81 0)) 3 5 2) 3 3 /\
  ~ occupied (SinglePlayer.markVisitedCircle (mkTrailMask 9 9 (replicate 81 0)) 3 5 2) 3 6.
Proof.
  split.
  - apply (single_player_stamp_is_skewed (mkTrailMask 9 9 (replicate 81 0)) 3 5 2 3 3).
    + unfold wellFormed; simpl; lia.
    + unfold inGrid; simpl; lia.
    + right. split; [vm_compute; intuition discriminate|discriminate].
  - intros Hocc. vm_compute in Hocc. discriminate.
Defined.

Lemma above_floor (q : Q) (k : Z) : Qfloor q <= k -> (q - 1 < inject_Z k)%Q.
Proof.
  intros Hk. pose proof (Qlt_floor q) as Hf.
  rewrite inject_Z_plus in Hf. change (inject_Z 1) with 1%Q in Hf.
  assert (Hz : (inject_Z (Qfloor q) <= inject_Z k)%Q)
    by (rewrite <- Zle_Qle; lia).
  generalize dependent (inject_Z (Qfloor q)). generalize (inject_Z k).
  intros. lra.
Qed.

Lemma below_ceiling (q : Q) (k : Z) : k <= Qceiling q -> (inject_Z k < q + 1)%Q.
Proof.
  intros Hk. pose proof (Qceiling_lt q) as Hc.
  assert (Hz : (inject_Z k - 1 <= inject_Z (Qceiling q - 1))%Q).
  { change 1%Q with (inject_Z 1). unfold Qminus.
    rewrite <- inject_Z_opp, <- inject_Z_plus, <- Zle_Qle. lia. }
  generalize dependent (inject_Z (Qceiling q - 1)). generalize (inject_Z k).
  intros. lra.
Qed.

(** X25: away from the diagonal the snapshot's stamp leaves no trail: for
    [r >= 0], when [centerY] and [centerX] differ by at least [2 r + 1] the
    stamp returns the mask unchanged. *)
Theorem single_player_stamp_off_diagonal_is_noop (mask : TrailMask) (cx cy r : Q) :
  (0 <= r)%Q ->
  (r + r + 1 <= cy - cx)%Q \/ (r + r + 1 <= cx - cy)%Q ->
  SinglePlayer.markVisitedCircle mask cx cy r = mask.
Proof.
  intros Hr Hoff. unfold SinglePlayer.markVisitedCircle. cbv zeta.
  apply foldl_unchanged. intros a py Hpy.
  apply elem_of_loopRange in Hpy.
  apply foldl_unchanged. intros a' px _.
  assert (Hlo : (cy - r - 1 < inject_Z py)%Q)
    by (apply above_floor; unfold Math_floor in Hpy; lia).
  assert (Hhi : (inject_Z py < cy + r + 1)%Q)
    by (apply below_ceiling; unfold Math_ceil in Hpy; lia).
  destruct (Qle_bool _ _) eqn:Hd; [|done].
  apply Qle_bool_iff in Hd. exfalso.
  set (dx := (inject_Z px - cx)%Q) in *. set (dy := (inject_Z py - cx)%Q) in *.
  assert (Hdy : (r < dy \/ dy < - r)%Q) by (subst dy; destruct Hoff; [left|right]; lra).
  assert (0 <= dx * dx)%Q by nra.
  destruct Hdy; nra.
Qed.

Lemma single_player_stamp_off_diagonal_is_noop_witness :
  SinglePlayer.markVisitedCircle (mkTrailMask 30 30 (replicate 900 0)) 10 20 2
  = mkTrailMask 30 30 (replicate 900 0).
Proof.
  apply (single_player_stamp_off_diagonal_is_noop
           (mkTrailMask 30 30 (replicate 900 0)) 10 20 2).
  - discriminate.
  - left. discriminate.
Defined.

Lemma Math_max_spec (a b : Q) :
  (a <= Math_max a b)%Q /\ (b <= Math_max a b)%Q /\
  (Math_max a b = a \/ Math_max a b = b).
Proof.
  unfold Math_max. destruct (Qle_bool a b) eqn:Hab.
  - apply Qle_bool_iff in Hab. repeat split; auto; lra.
  - assert (~ (a <= b)%Q) by (intros H; apply Qle_bool_iff in H; congruence).
    repeat split; auto; lra.
Qed.

Lemma Math_min_spec (a b : Q) :
  (Math_min a b <= a)%Q /\ (Math_min a b <= b)%Q /\
  (Math_min a b = a \/ Math_min a b = b).
Proof.
  unfold Math_min. destruct (Qle_bool a b) eqn:Hab.
  - apply Qle_bool_iff in Hab. repeat split; auto; lra.
  - assert (~ (a <= b)%Q) by (intros H; apply Qle_bool_iff in H; congruence).
    repeat split; auto; lra.
Qed.

(** [Math.max(lo, Math.min(hi, v))]: never below [lo]; never above [hi]
    unless [hi < lo]. *)
Lemma clamp_bounds (lo hi v : Q) :
  (lo <= Math_max lo (Math_min hi v))%Q /\
  ((lo <= hi)%Q -> (Math_max lo (Math_min hi v) <= hi)%Q).
Proof.
  destruct (Math_max_spec lo (Math_min hi v)) as (H1 & H2 & [E|E]);
    destruct (Math_min_spec hi v) as (H3 & H4 & _);
    split; auto; intros Hle; rewrite E; lra.
Qed.

Section SinglePlayerFacts.

Variables (Math_cos Math_sin : Q -> Q) (Math_PI : Q).

Local Abbreviation spStep := (SinglePlayer.step Math_cos Math_sin Math_PI).

(** X26: in the single-player snapshot the dot is clamped to the surface
    instead of dying at its edge: after a tick that leaves the dot moving,
    each coordinate of its position is at least the dot radius, and at most
    the surface size less the radius when the surface is at least two radii
    wide; the query at the rounded new position found no collision, and that
    position was stamped and pushed to the recent buffer. *)
Theorem single_player_step_clamps_to_surface (nowMs : Q) (st : SinglePlayer.State) :
  let st' := spStep nowMs st in
  let r := SinglePlayer.radiusPixels in
  let w := inject_Z (SinglePlayer.clientWidth st) in
  let h := inject_Z (SinglePlayer.clientHeight st) in
  let here := roundedPosition (SinglePlayer.positionPixels st') in
  SinglePlayer.isMoving st' = true ->
  SinglePlayer.isMoving st = true /\
  (r <= x (SinglePlayer.positionPixels st'))%Q /\
  (r <= y (SinglePlayer.positionPixels st'))%Q /\
  ((r <= w - r)%Q -> (x (SinglePlayer.positionPixels st') <= w - r)%Q) /\
  ((r <= h - r)%Q -> (y (SinglePlayer.positionPixels st') <= h - r)%Q) /\
  SinglePlayer.collidesWithTrailExcludingRecent (SinglePlayer.trailMask st) here r
    (SinglePlayer.recentPositions st) SinglePlayer.extraIgnoreMarginPixels = false /\
  SinglePlayer.trailMask st' =
    SinglePlayer.markVisitedCircle (SinglePlayer.trailMask st) (x here) (y here) r /\
  SinglePlayer.recentPositions st' =
    SinglePlayer.pushRecentPosition (SinglePlayer.recentPositions st) here.
Proof.
  intros st' r w h here. subst st' r w h here. unfold SinglePlayer.step. cbv zeta.
  destruct (SinglePlayer.isMoving st); [|discriminate].
  destruct (SinglePlayer.collidesWithTrailExcludingRecent _ _ _ _ _) eqn:Hc;
    cbn [negb]; [discriminate|].
  cbn [SinglePlayer.isMoving SinglePlayer.positionPixels SinglePlayer.trailMask
       SinglePlayer.recentPositions x y].
  intros _.
  split; [done|].
  split; [apply clamp_bounds|]. split; [apply clamp_bounds|].
  split; [apply clamp_bounds|]. split; [apply clamp_bounds|].
  split; [exact Hc|]. done.
Qed.

(** X27: a collision only stops the dot: a tick that leaves the dot not
    moving (it was paused, or the query found a collision) leaves the
    position, the mask, the recent buffer, the held keys and the surface size
    as they were; there is no death and no end of the round, and the toggle
    key sets the dot moving again. *)
Theorem single_player_collision_only_stops (nowMs : Q) (st : SinglePlayer.State) :
  let st' := spStep nowMs st in
  SinglePlayer.isMoving st' = false ->
  SinglePlayer.positionPixels st' = SinglePlayer.positionPixels st /\
  SinglePlayer.trailMask st' = SinglePlayer.trailMask st /\
  SinglePlayer.recentPositions st' = SinglePlayer.recentPositions st /\
  SinglePlayer.pressedKeys st' = SinglePlayer.pressedKeys st /\
  SinglePlayer.clientWidth st' = SinglePlayer.clientWidth st /\
  SinglePlayer.clientHeight st' = SinglePlayer.clientHeight st /\
  SinglePlayer.lastTimestampMs st' = nowMs /\
  SinglePlayer.isMoving
    (SinglePlayer.handleKeyDown SinglePlayer.toggleMovementKey st') = true.
Proof.
  intros st'. subst st'. unfold SinglePlayer.step. cbv zeta.
  destruct (SinglePlayer.isMoving st); [|done].
  destruct (SinglePlayer.collidesWithTrailExcludingRecent _ _ _ _ _);
    cbn [negb]; [done|discriminate].
Qed.

End SinglePlayerFacts.

Lemma single_player_step_clamps_to_surface_witness :
  SinglePlayer.positionPixels
    (SinglePlayer.step cosAtZero sinAtZero piApprox (25 # 2) (singleSample true))
  = mkVector2D
      (Math_max 2 (Math_min (100 - 2) (50 + 1 * 80 * ((25 # 2) - 0) / 1000)))
      (Math_max 2 (Math_min (100 - 2) (50 + 0 * 80 * ((25 # 2) - 0) / 1000))) /\
  (2 <= x (SinglePlayer.positionPixels
             (SinglePlayer.step cosAtZero sinAtZero piApprox (25 # 2)
                (singleSample true))))%Q.
Proof.
  split; [reflexivity|].
  destruct (single_player_step_clamps_to_surface cosAtZero sinAtZero piApprox
              (25 # 2) (singleSample true)) as (_ & Hx & _);
    [vm_compute; reflexivity|exact Hx].
Defined.

(** A tick that collides with the old trail ahead. *)
Lemma single_player_collision_only_stops_witness :
  SinglePlayer.isMoving singleBlocked = true /\
  SinglePlayer.isMoving
    (SinglePlayer.step cosAtZero sinAtZero piApprox (25 # 2) singleBlocked) = false /\
  SinglePlayer.positionPixels
    (SinglePlayer.step cosAtZero sinAtZero piApprox (25 # 2) singleBlocked)
  = SinglePlayer.positionPixels singleBlocked /\
  SinglePlayer.trailMask
    (SinglePlayer.step cosAtZero sinAtZero piApprox (25 # 2) singleBlocked)
  = SinglePlayer.trailMask singleBlocked.
Proof.
  assert (Hstop : SinglePlayer.isMoving
            (SinglePlayer.step cosAtZero sinAtZero piApprox (25 # 2) singleBlocked)
          = false) by (vm_compute; reflexivity).
  destruct (single_player_collision_only_stops cosAtZero sinAtZero piApprox
              (25 # 2) singleBlocked Hstop) as (Hp & Hm & _).
  split; [reflexivity|]. split; [exact Hstop|]. split; [exact Hp|exact Hm].
Defined.

(** X28: the resize handler of the snapshot.  It fails when the surface
    area is negative.  When it returns it has drawn two random
    numbers, has kept the movement flag, the heading and the held keys, and
    has pushed the rounded spawn position onto the recent buffer it found,
    without clearing that buffer.  On a surface of at least 4 x 4 pixels,
    with draws in [0, 1), the dot spawns at least one radius away from
    every side. *)
Theorem single_player_resize (window : Window) (st : SinglePlayer.State)
    (rng : Rng) :
  (innerWidth window * innerHeight window < 0 ->
   SinglePlayer.setCanvasSizeForHiDPI window st rng = None) /\
  forall st' rng',
    SinglePlayer.setCanvasSizeForHiDPI window st rng = Some (st', rng') ->
    rng' = skipDraws 2 rng /\
    SinglePlayer.isMoving st' = SinglePlayer.isMoving st /\
    SinglePlayer.headingAngleRadians st' = SinglePlayer.headingAngleRadians st /\
    SinglePlayer.pressedKeys st' = SinglePlayer.pressedKeys st /\
    SinglePlayer.recentPositions st' =
      SinglePlayer.pushRecentPosition (SinglePlayer.recentPositions st)
        (roundedPosition (SinglePlayer.positionPixels st')) /\
    (unitDraws rng -> 4 <= innerWidth window -> 4 <= innerHeight window ->
     (2 <= x (SinglePlayer.positionPixels st') <= inject_Z (innerWidth window) - 2)%Q /\
     (2 <= y (SinglePlayer.positionPixels st') <= inject_Z (innerHeight window) - 2)%Q).
Proof.
  unfold SinglePlayer.setCanvasSizeForHiDPI.
  destruct (createTrailMask (innerWidth window) (innerHeight window))
    as [mask0|] eqn:Hnew.
  - split.
    + intros Hneg. unfold createTrailMask in Hnew.
      apply Z.ltb_lt in Hneg. rewrite Hneg in Hnew. discriminate.
    + intros st' rng' [= <- <-].
      unfold bind, ret, Math_random. cbn.
      repeat (split; [reflexivity|]).
      intros Hrng Hw Hh. rewrite Zle_Qle in Hw, Hh.
      change (inject_Z 4) with 4%Q in Hw, Hh.
      pose proof (Hrng 0%nat) as U0. pose proof (Hrng 1%nat) as U1.
      unfold SinglePlayer.radiusPixels.
      set (w := inject_Z (innerWidth window)) in *.
      set (h := inject_Z (innerHeight window)) in *.
      split; split; nra.
  - split; [done|discriminate].
Qed.
